(** * CrossFadeIcon, FAB.Group and shadow: a shallow embedding

    [src/components/CrossFadeIcon.tsx] holds three units, which are
    embedded as Rocq functions:

    - [CrossFadeIcon]   the icon component: [getDerivedStateFromProps],
                        [componentDidUpdate], [render];
    - [FABGroup]        the speed-dial group: [getDerivedStateFromProps],
                        [componentDidUpdate], [close], [toggle] and the
                        press handler of an action item;
    - [Shadow.shadow]   the elevation-to-shadow-style helper.

    JavaScript numbers are read as rationals ([Q]), and [===] on numbers
    is [Qeq_bool].  An [Animated.Value] is a mutable object: it is a
    reference into a store, and [new Animated.Value(v)] allocates a cell.

    The source calls React Native's [Animated] library ([interpolate],
    [timing], [parallel], [stagger]), which is not part of the repository;
    [Module Animated] models the part of its behaviour that the source
    relies on, after the library's own implementation. *)

From Stdlib Require Import ZArith QArith Qminmax Lqa String Bool Arith List Lia.
Import ListNotations.

Open Scope Q_scope.

(** ** The host framework's [Animated] API, as far as the source uses it *)

Module Animated.

(** An [Animated.Value] object: a reference into the store. *)
Definition Value := nat.

(** The store of the animated values: cell [r] holds the current number
    of the value [r]. *)
Definition Store := list Q.

(** Computations that allocate animated values. *)
Definition M (A : Type) : Type := Store -> A * Store.

Definition ret {A} (a : A) : M A := fun s => (a, s).

Definition bind {A B} (m : M A) (k : A -> M B) : M B :=
  fun s => let (a, s') := m s in k a s'.

(** [new Animated.Value(v)] *)
Definition new_Value (v : Q) : M Value :=
  fun s => (length s, s ++ [v]).

Definition getValue (s : Store) (r : Value) : option Q := nth_error s r.

Fixpoint setValue (s : Store) (r : Value) (v : Q) : Store :=
  match s, r with
  | [], _ => []
  | _ :: s', O => v :: s'
  | x :: s', S r' => x :: setValue s' r' v
  end.

(** *** Interpolation *)

Inductive ExtrapolateType := extend | identity | clamp.

(** The configuration object handed to [interpolate]; an option that the
    caller leaves out is [None]. *)
Record InterpolationConfig := {
  inputRange : list Q;
  outputRange : list Q;
  extrapolate : option ExtrapolateType;
  extrapolateLeft : option ExtrapolateType;
  extrapolateRight : option ExtrapolateType
}.

(** [{ inputRange, outputRange }], no extrapolation option given. *)
Definition ranges (i o : list Q) : InterpolationConfig :=
  {| inputRange := i; outputRange := o;
     extrapolate := None; extrapolateLeft := None; extrapolateRight := None |}.

Definition Qlt_bool (x y : Q) : bool := negb (Qle_bool y x).

Definition is_identity (e : ExtrapolateType) : bool :=
  match e with identity => true | _ => false end.

Definition is_clamp (e : ExtrapolateType) : bool :=
  match e with clamp => true | _ => false end.

(** The framework's [interpolate] on one segment, with the linear
    (default) easing.  The infinite end points of the framework have no
    counterpart in [Q]. *)
Definition interpolate (input inputMin inputMax outputMin outputMax : Q)
    (left right : ExtrapolateType) : Q :=
  if Qlt_bool input inputMin && is_identity left then input
  else
    let result :=
      if Qlt_bool input inputMin && is_clamp left then inputMin else input in
    if Qlt_bool inputMax result && is_identity right then result
    else
      let result :=
        if Qlt_bool inputMax result && is_clamp right then inputMax
        else result in
      if Qeq_bool outputMin outputMax then outputMin
      else if Qeq_bool inputMin inputMax then
        if Qle_bool input inputMin then outputMin else outputMax
      else
        let result := (result - inputMin) / (inputMax - inputMin) in
        result * (outputMax - outputMin) + outputMin.

(** [for (i = 1; i < inputRange.length - 1; ++i) if (inputRange[i] >= input) break;]
    [rest] is [inputRange] from index [i] on. *)
Fixpoint findRange_loop (input : Q) (i : nat) (rest : list Q) : nat :=
  match rest with
  | x :: (_ :: _) as rest' =>
      if Qle_bool input x then i else findRange_loop input (S i) rest'
  | _ => i
  end.

Definition findRange (input : Q) (inputRange : list Q) : nat :=
  (findRange_loop input 1 (tl inputRange) - 1)%nat.

(** The default of both extrapolation sides is [extend]; [extrapolate]
    sets both, [extrapolateLeft] and [extrapolateRight] override it. *)
Definition left_of (c : InterpolationConfig) : ExtrapolateType :=
  match extrapolateLeft c, extrapolate c with
  | Some e, _ => e
  | None, Some e => e
  | None, None => extend
  end.

Definition right_of (c : InterpolationConfig) : ExtrapolateType :=
  match extrapolateRight c, extrapolate c with
  | Some e, _ => e
  | None, Some e => e
  | None, None => extend
  end.

(** The function that a configuration denotes. *)
Definition createInterpolation (c : InterpolationConfig) (input : Q) : Q :=
  let range := findRange input (inputRange c) in
  interpolate input
    (nth range (inputRange c) 0) (nth (S range) (inputRange c) 0)
    (nth range (outputRange c) 0) (nth (S range) (outputRange c) 0)
    (left_of c) (right_of c).

(** Animated nodes: a value, or an interpolation of a parent node. *)
Inductive Node :=
| NValue (v : Value)
| NInterpolation (parent : Node) (config : InterpolationConfig).

(** [v.interpolate(config)] *)
Definition Value_interpolate (v : Value) (c : InterpolationConfig) : Node :=
  NInterpolation (NValue v) c.

(** The number a node shows in a store. *)
Fixpoint node_getValue (s : Store) (n : Node) : option Q :=
  match n with
  | NValue v => getValue s v
  | NInterpolation p c => option_map (createInterpolation c) (node_getValue s p)
  end.

(** *** Composite animations *)

#[warnings="-register-all"]
Inductive CompositeAnimation :=
| timing (value : Value) (toValue duration : Q)
| delay (time : Q)
| sequence (animations : list CompositeAnimation)
| parallel (animations : list CompositeAnimation).

(** [animations.map((animation, i) => f(animation, i))], from index [i]. *)
Fixpoint map_index {A B} (f : A -> nat -> B) (i : nat) (l : list A) : list B :=
  match l with
  | [] => []
  | a :: l' => f a i :: map_index f (S i) l'
  end.

(** [stagger(time, animations)] is
    [parallel(animations.map((animation, i) => sequence([delay(time * i), animation])))]. *)
Definition stagger (time : Q) (animations : list CompositeAnimation)
  : CompositeAnimation :=
  parallel
    (map_index
       (fun animation i =>
          sequence [delay (time * inject_Z (Z.of_nat i)); animation])
       0 animations).

(** How long a composite animation runs. *)
Fixpoint span (a : CompositeAnimation) : Q :=
  match a with
  | timing _ _ d => d
  | delay t => t
  | sequence l => fold_right (fun x acc => span x + acc) 0 l
  | parallel l => fold_right (fun x acc => Qmax (span x) acc) 0 l
  end.

(** One timed transition of a started animation: which value, when it
    starts (relative to [start()]), where it goes and how long it takes. *)
Record Step := {
  step_value : Value;
  step_start : Q;
  step_toValue : Q;
  step_duration : Q
}.

(** The transitions of a composite animation started at offset [t0]:
    the members of a sequence start one after the other, those of a
    parallel group together. *)
Fixpoint schedule (t0 : Q) (a : CompositeAnimation) : list Step :=
  match a with
  | timing v to d =>
      [{| step_value := v; step_start := t0;
          step_toValue := to; step_duration := d |}]
  | delay _ => []
  | sequence l =>
      (fix go (l : list CompositeAnimation) (t : Q) : list Step :=
         match l with
         | [] => []
         | x :: l' => schedule t x ++ go l' (t + span x)
         end) l t0
  | parallel l =>
      (fix go (l : list CompositeAnimation) : list Step :=
         match l with
         | [] => []
         | x :: l' => schedule t0 x ++ go l'
         end) l
  end.

(** [animation.start()] *)
Definition start (a : CompositeAnimation) : list Step := schedule 0 a.

(** The store once every transition of a started animation has run to its
    end. *)
Definition finish (steps : list Step) (s : Store) : Store :=
  fold_left (fun s st => setValue s (step_value st) (step_toValue st)) steps s.

End Animated.

Notation "x <- m ;; k" := (Animated.bind m (fun x => k))
  (at level 61, m at next level, right associativity).

(** ** [shadow] *)

Module Shadow.

Inductive Elevation :=
| Number (n : Q)
| AnimatedValue (v : Animated.Value).

Record Offset (A : Type) := { width : A; height : A }.
Arguments width {A}.
Arguments height {A}.

Record ShadowStyle (C A : Type) := {
  shadowColor : C;
  shadowOffset : Offset A;
  shadowOpacity : A;
  shadowRadius : A
}.
Arguments shadowColor {C A}.
Arguments shadowOffset {C A}.
Arguments shadowOpacity {C A}.
Arguments shadowRadius {C A}.

(** What [shadow] returns: [{}], a style of numbers, or a style of
    animated nodes. *)
Inductive Style (C : Type) :=
| Empty
| Static (s : ShadowStyle C Q)
| Dynamic (s : ShadowStyle C Animated.Node).
Arguments Empty {C}.
Arguments Static {C}.
Arguments Dynamic {C}.

Section WithColors.

(** [Colors.black] of [./colors], which the source imports. *)
Variable Color : Type.
Variable Colors_black : Color.

Definition SHADOW_COLOR : Color := Colors_black.
Definition SHADOW_OPACITY : Q := 0.35.

(** The switch of the static branch: [(height, radius)]. *)
Definition height_radius (elevation : Q) : Q * Q :=
  if Qeq_bool elevation 1 then (0.5, 0.75)
  else if Qeq_bool elevation 2 then (0.75, 1.5)
  else (elevation - 1, elevation).

(** [shadow(elevation = 0)]: a missing argument is [None]. *)
Definition shadow (arg : option Elevation) : Animated.M (Style Color) :=
  let elevation := match arg with Some e => e | None => Number 0 end in
  match elevation with
  | AnimatedValue elevation =>
      let inputRange := [0; 1; 2; 3; 8; 24] in
      w <- Animated.new_Value 0 ;;
      let h :=
        Animated.Value_interpolate elevation
          (Animated.ranges inputRange [0; 0.1; 0.5; 0.75; 2; 7]) in
      o <- Animated.new_Value SHADOW_OPACITY ;;
      let r :=
        Animated.Value_interpolate elevation
          (Animated.ranges inputRange [0; 1; 2.5; 5; 12; 24]) in
      Animated.ret
        (Dynamic
           {| shadowColor := SHADOW_COLOR;
              shadowOffset :=
                {| width := Animated.NValue w; height := h |};
              shadowOpacity := Animated.NValue o;
              shadowRadius := r |})
  | Number elevation =>
      if Qeq_bool elevation 0 then Animated.ret Empty
      else
        let (height, radius) := height_radius elevation in
        Animated.ret
          (Static
             {| shadowColor := SHADOW_COLOR;
                shadowOffset := {| width := 0; height := 0 |};
                shadowOpacity := SHADOW_OPACITY;
                shadowRadius := radius |})
  end.

End WithColors.

End Shadow.

(** ** [CrossFadeIcon] *)

Module CrossFadeIcon.

(** What the rotation of the animated view is bound to: an animated node,
    or a fixed angle (['0deg'] is [RotateFixed 0]).  Angles are in
    degrees. *)
Inductive Rotate :=
| RotateNode (n : Animated.Node)
| RotateFixed (deg : Q).

Section WithIcons.

(** [IconSource] of [./Icon]: an opaque icon reference.  [===] on it is
    decidable identity; [truthy] is its JavaScript truth value. *)
Variable IconSource : Type.
Variable IconSource_eq_dec : forall a b : IconSource, {a = b} + {a <> b}.
Variable truthy : IconSource -> bool.

Record Props := {
  source : IconSource;
  color : string;
  size : Q;
  theme_animation_scale : Q;
  isOpen : bool
}.

(** [previousIcon] is absent ([None]) until it is first assigned. *)
Record State := {
  currentIcon : IconSource;
  previousIcon : option IconSource;
  fade : Animated.Value
}.

(** The partial state that [getDerivedStateFromProps] returns. *)
Record Derived := {
  derived_currentIcon : IconSource;
  derived_previousIcon : IconSource
}.

Definition getDerivedStateFromProps (nextProps : Props) (nextState : State)
  : option Derived :=
  if IconSource_eq_dec (currentIcon nextState) (source nextProps) then None
  else
    Some {| derived_currentIcon := source nextProps;
            derived_previousIcon := currentIcon nextState |}.

(** The framework merges a returned partial state into the state;
    [null] leaves the state as it is. *)
Definition merge (st : State) (d : option Derived) : State :=
  match d with
  | None => st
  | Some d =>
      {| currentIcon := derived_currentIcon d;
         previousIcon := Some (derived_previousIcon d);
         fade := fade st |}
  end.

(** [state = { currentIcon: this.props.source, fade: new Animated.Value(0) }] *)
Definition initialState (props : Props) : Animated.M State :=
  f <- Animated.new_Value 0 ;;
  Animated.ret
    {| currentIcon := source props; previousIcon := None; fade := f |}.

(** The animations that [componentDidUpdate] starts. *)
Definition componentDidUpdate (props : Props) (prevState state : State)
  : list Animated.CompositeAnimation :=
  let scale := theme_animation_scale props in
  [Animated.timing (fade state)
     (if isOpen props then 1 else 0) (scale * 200)].

(** What [render] returns: the outer view's box, the rotation of the
    animated view, and the one [Icon] element in it. *)
Record Rendered := {
  content_height : Q;
  content_width : Q;
  rotate : Rotate;
  icon_source : IconSource;
  icon_size : Q;
  icon_color : string
}.

Definition truthy_opt (o : option IconSource) : bool :=
  match o with
  | Some i => truthy i
  | None => false
  end.

Definition render (props : Props) (state : State) : Rendered :=
  let rotateNext :=
    if truthy_opt (previousIcon state) then
      RotateNode
        (Animated.Value_interpolate (fade state)
           (Animated.ranges [0; 1] [0; 45]))
    else RotateFixed 0 in
  {| content_height := size props;
     content_width := size props;
     rotate := rotateNext;
     icon_source := currentIcon state;
     icon_size := size props;
     icon_color := color props |}.

(** *** The component's life cycle, as the framework drives it *)

Record Instance := { props : Props; state : State }.

(** Mounting: the initial state, then the derived state. *)
Definition mount (p : Props) : Animated.M Instance :=
  st <- initialState p ;;
  Animated.ret
    {| props := p; state := merge st (getDerivedStateFromProps p st) |}.

(** An update with new props: the derived state, then (after the
    render) the update hook, whose animations run to their end. *)
Definition update (i : Instance) (p : Props) (s : Animated.Store)
  : Instance * Animated.Store :=
  let st := merge (state i) (getDerivedStateFromProps p (state i)) in
  let started := componentDidUpdate p (state i) st in
  ({| props := p; state := st |},
   Animated.finish (flat_map Animated.start started) s).

Fixpoint updates (i : Instance) (ps : list Props) (s : Animated.Store)
  : Instance * Animated.Store :=
  match ps with
  | [] => (i, s)
  | p :: ps' => let (i', s') := update i p s in updates i' ps' s'
  end.

(** Mount with [p0], then apply the props of [ps] one after the other. *)
Definition run (p0 : Props) (ps : list Props) : Instance * Animated.Store :=
  let (i, s) := mount p0 [] in updates i ps s.

Definition view (i : Instance) : Rendered := render (props i) (state i).

(** The angle a rendered rotation shows in a store. *)
Definition angle (s : Animated.Store) (r : Rotate) : option Q :=
  match r with
  | RotateNode n => Animated.node_getValue s n
  | RotateFixed d => Some d
  end.

End WithIcons.

Arguments source {IconSource}.
Arguments color {IconSource}.
Arguments size {IconSource}.
Arguments theme_animation_scale {IconSource}.
Arguments isOpen {IconSource}.
Arguments currentIcon {IconSource}.
Arguments previousIcon {IconSource}.
Arguments fade {IconSource}.
Arguments rotate {IconSource}.
Arguments icon_source {IconSource}.
Arguments icon_size {IconSource}.
Arguments icon_color {IconSource}.
Arguments content_height {IconSource}.
Arguments content_width {IconSource}.
Arguments props {IconSource}.
Arguments state {IconSource}.
Arguments getDerivedStateFromProps {IconSource}.
Arguments merge {IconSource}.
Arguments initialState {IconSource}.
Arguments componentDidUpdate {IconSource}.
Arguments truthy_opt {IconSource}.
Arguments render {IconSource}.
Arguments mount {IconSource}.
Arguments update {IconSource}.
Arguments updates {IconSource}.
Arguments run {IconSource}.
Arguments view {IconSource}.

End CrossFadeIcon.

(** ** [FAB.Group] *)

Module FABGroup.

(** *** Callbacks *)

(** What a callback does that the outside can see: a request to the
    owner of the open flag, or anything else. *)
Inductive Event :=
| StateChange (open : bool)
| Other (tag : nat).

Inductive Outcome (A : Type) :=
| Returned (a : A)
| Thrown.
Arguments Returned {A}.
Arguments Thrown {A}.

(** A call: the events it causes, and whether it returns or throws. *)
Definition Eff (A : Type) : Type := list Event * Outcome A.

Definition eret {A} (a : A) : Eff A := ([], Returned a).

(** Statement sequencing: what follows a throwing call does not run. *)
Definition ebind {A B} (m : Eff A) (k : A -> Eff B) : Eff B :=
  match m with
  | (es, Returned a) => let (es', r) := k a in (es ++ es', r)
  | (es, Thrown) => (es, Thrown)
  end.

(** [this.props.onStateChange({ open })]: the request goes to the owner
    of the open flag. *)
Definition onStateChange (open : bool) : Eff unit :=
  ([StateChange open], Returned tt).

(** An action item: its label and its [onPress] callback. *)
Record Action := {
  text : option string;
  onPress : unit -> Eff unit
}.

Record Props := {
  actions : list Action;
  open : bool;
  theme_animation_scale : Q
}.

Record State := {
  backdrop : Animated.Value;
  animations : list Animated.Value
}.

(** [prevState.animations[i] || new Animated.Value(nextProps.open ? 1 : 0)]:
    an [Animated.Value] is an object, hence truthy; only a missing entry
    is replaced. *)
Definition animation_at (prev : list Animated.Value) (open : bool) (i : nat)
  : Animated.M Animated.Value :=
  match nth_error prev i with
  | Some v => Animated.ret v
  | None => Animated.new_Value (if open then 1 else 0)
  end.

(** [actions.map((_, i) => ...)], the callback run for [i], [i+1], ... *)
Fixpoint derive_animations (acts : list Action) (i : nat)
    (prev : list Animated.Value) (open : bool)
  : Animated.M (list Animated.Value) :=
  match acts with
  | [] => Animated.ret []
  | _ :: acts' =>
      a <- animation_at prev open i ;;
      l <- derive_animations acts' (S i) prev open ;;
      Animated.ret (a :: l)
  end.

(** [getDerivedStateFromProps], merged into the state. *)
Definition getDerivedStateFromProps (nextProps : Props) (prevState : State)
  : Animated.M State :=
  l <- derive_animations (actions nextProps) 0 (animations prevState)
         (open nextProps) ;;
  Animated.ret {| backdrop := backdrop prevState; animations := l |}.

(** [state = { backdrop: new Animated.Value(0), animations: [] }] *)
Definition initialState : Animated.M State :=
  b <- Animated.new_Value 0 ;;
  Animated.ret {| backdrop := b; animations := [] |}.

(** The animations that [componentDidUpdate] starts. *)
Definition componentDidUpdate (props prevProps : Props) (state : State)
  : list Animated.CompositeAnimation :=
  if Bool.eqb (open props) (open prevProps) then []
  else
    let scale := theme_animation_scale props in
    if open props then
      [Animated.parallel
         [Animated.timing (backdrop state) 0.32 (250 * scale);
          Animated.stagger (50 * scale)
            (rev
               (map
                  (fun animation =>
                     Animated.timing animation 1 (150 * scale))
                  (animations state)))]]
    else
      [Animated.parallel
         [Animated.timing (backdrop state) 0 (200 * scale);
          Animated.stagger (50 * scale)
            (map
               (fun animation =>
                  Animated.timing animation 0 (150 * scale))
               (animations state))]].

Definition close : Eff unit := onStateChange false.

Definition toggle (props : Props) : Eff unit :=
  onStateChange (negb (open props)).

(** The [onPress] that [render] gives to the button of the item [it]:
    [() => { it.onPress(); this.close() }]. *)
Definition item_onPress (it : Action) : Eff unit :=
  ebind (onPress it tt) (fun _ => close).

(** The transitions that an update from [prevProps] to [props] starts. *)
Definition started_steps (props prevProps : Props) (state : State)
  : list Animated.Step :=
  flat_map Animated.start (componentDidUpdate props prevProps state).

End FABGroup.

(** ** Reference functions for the statements *)

Module Reference.

(** The straight line through [(x0, y0)] and [(x1, y1)], at [x]. *)
Definition lerp (x0 x1 y0 y1 x : Q) : Q :=
  y0 + (x - x0) * (y1 - y0) / (x1 - x0).

(** [x] held inside [[lo, hi]]. *)
Definition clamp_to (lo hi x : Q) : Q :=
  if Qle_bool x lo then lo else if Qle_bool hi x then hi else x.

(** The two tables of the dynamic shadow. *)
Definition breakpoints : list Q := [0; 1; 2; 3; 8; 24].
Definition height_outputs : list Q := [0; 0.1; 0.5; 0.75; 2; 7].
Definition radius_outputs : list Q := [0; 1; 2.5; 5; 12; 24].

(** Piecewise-linear interpolation over the breakpoints, on the segment
    that holds [x]; the first and the last segment are extended beyond
    the table. *)
Definition piecewise (ys : list Q) (x : Q) : Q :=
  if Qle_bool x 1 then lerp 0 1 (nth 0 ys 0) (nth 1 ys 0) x
  else if Qle_bool x 2 then lerp 1 2 (nth 1 ys 0) (nth 2 ys 0) x
  else if Qle_bool x 3 then lerp 2 3 (nth 2 ys 0) (nth 3 ys 0) x
  else if Qle_bool x 8 then lerp 3 8 (nth 3 ys 0) (nth 4 ys 0) x
  else lerp 8 24 (nth 4 ys 0) (nth 5 ys 0) x.

(** The same, clamped at the ends of the table. *)
Definition piecewise_clamped (ys : list Q) (x : Q) : Q :=
  piecewise ys (clamp_to 0 24 x).

(** The transition of the value [r] that is [k]-th in a stagger. *)
Definition staggered (t0 time to d : Q) (r : Animated.Value) (k : nat)
  : Animated.Step :=
  {| Animated.step_value := r;
     Animated.step_start := t0 + time * inject_Z (Z.of_nat k);
     Animated.step_toValue := to;
     Animated.step_duration := d |}.

(** The number of close requests among some events. *)
Fixpoint close_requests (es : list FABGroup.Event) : nat :=
  match es with
  | [] => 0
  | FABGroup.StateChange false :: es' => S (close_requests es')
  | _ :: es' => close_requests es'
  end.

End Reference.

(** ** Two sentences of the description, as they are worded *)

Module Stated.

(** "Whenever the last two supplied icons are equal, the rendered
    rotation is fixed at 0 degrees." *)
Definition rotation_fixed_when_last_two_equal
    (IconSource : Type)
    (eq_dec : forall a b : IconSource, {a = b} + {a <> b})
    (truthy : IconSource -> bool) : Prop :=
  forall (p0 : CrossFadeIcon.Props IconSource) ps front p q,
    p0 :: ps = front ++ [p; q] ->
    CrossFadeIcon.source p = CrossFadeIcon.source q ->
    CrossFadeIcon.rotate
      (CrossFadeIcon.view truthy (fst (CrossFadeIcon.run eq_dec p0 ps)))
    = CrossFadeIcon.RotateFixed 0.

(** "If a previous icon exists the rendered rotation angle is the linear
    interpolation of the progress value." *)
Definition rotation_interpolated_when_previous_exists
    (IconSource : Type) (truthy : IconSource -> bool) : Prop :=
  forall (p : CrossFadeIcon.Props IconSource)
         (st : CrossFadeIcon.State IconSource) (prev : IconSource),
    CrossFadeIcon.previousIcon st = Some prev ->
    CrossFadeIcon.rotate (CrossFadeIcon.render truthy p st)
    = CrossFadeIcon.RotateNode
        (Animated.Value_interpolate (CrossFadeIcon.fade st)
           (Animated.ranges [0; 1] [0; 45])).

(** "Activating an item invokes its callback and then issues one close
    request, whatever the callback does and whether or not it fails." *)
Definition close_requested_whatever_happens : Prop :=
  forall it : FABGroup.Action,
    fst (FABGroup.item_onPress it) =
      fst (FABGroup.onPress it tt) ++ [FABGroup.StateChange false].

End Stated.

(** ** Concrete inputs *)

Module Inputs.

(** Icons named by strings: the empty name is the falsy one. *)
Definition nonempty (s : string) : bool := negb (String.eqb s EmptyString).

Definition plus : CrossFadeIcon.Props string :=
  {| CrossFadeIcon.source := "plus"%string;
     CrossFadeIcon.color := "white"%string;
     CrossFadeIcon.size := 24;
     CrossFadeIcon.theme_animation_scale := 1;
     CrossFadeIcon.isOpen := true |}.

Definition star : CrossFadeIcon.Props string :=
  {| CrossFadeIcon.source := "star"%string;
     CrossFadeIcon.color := "white"%string;
     CrossFadeIcon.size := 24;
     CrossFadeIcon.theme_animation_scale := 1;
     CrossFadeIcon.isOpen := true |}.

(** Props whose icon is the empty name. *)
Definition blank : CrossFadeIcon.Props string :=
  {| CrossFadeIcon.source := EmptyString;
     CrossFadeIcon.color := "white"%string;
     CrossFadeIcon.size := 24;
     CrossFadeIcon.theme_animation_scale := 1;
     CrossFadeIcon.isOpen := true |}.

(** A group of three actions, whose progress values are the store's
    cells 1, 2 and 3 and whose backdrop is the cell 0. *)
Definition quiet : FABGroup.Action :=
  {| FABGroup.text := None;
     FABGroup.onPress := fun _ => ([FABGroup.Other 7], FABGroup.Returned tt) |}.

Definition failing : FABGroup.Action :=
  {| FABGroup.text := None;
     FABGroup.onPress := fun _ => ([FABGroup.Other 7], FABGroup.Thrown) |}.

Definition group (open : bool) : FABGroup.Props :=
  {| FABGroup.actions := [quiet; quiet; quiet];
     FABGroup.open := open;
     FABGroup.theme_animation_scale := 1 |}.

Definition three : FABGroup.State :=
  {| FABGroup.backdrop := 0%nat; FABGroup.animations := [1; 2; 3]%nat |}.

End Inputs.

(** ** [FAB.Group]: what [render] builds *)

Module FABGroupView.

Import Animated FABGroup.

Inductive PointerEvents := pointer_auto | pointer_none | pointer_box_none.

(** The scale of an item: an animated node, or the number [1]. *)
Inductive Scale :=
| ScaleNode (n : Node)
| ScaleFixed (x : Q).

(** [opacities.map(opacity => open ? opacity.interpolate({...}) : 1)] *)
Definition scales (props : Props) (state : State) : list Scale :=
  map
    (fun opacity =>
       if open props then
         ScaleNode (Value_interpolate opacity (ranges [0; 1] [0.8; 1]))
       else ScaleFixed 1)
    (animations state).

(** The view of one action: [scales[i]] and [opacities[i]] are [None]
    where the array has no such index. *)
Record Item := {
  item_key : nat;
  item_pointerEvents : PointerEvents;
  item_scale : option Scale;
  item_opacity : option Value;
  button_text : option string;
  button_onPress : Eff unit
}.

Record Rendered := {
  backdrop_onPress : Eff unit;
  backdrop_pointerEvents : PointerEvents;
  backdrop_opacity : Value;
  backdrop_backgroundColor : string;
  column_pointerEvents : PointerEvents;
  items : list Item;
  fab_onPress : Eff unit
}.

(** [onPress?.()]: a missing callback is not called. *)
Definition optional_call (onPress : option (unit -> Eff unit)) : Eff unit :=
  match onPress with
  | Some f => f tt
  | None => eret tt
  end.

(** [render]; [onPress] is the optional prop of that name. *)
Definition render (props : Props) (onPress : option (unit -> Eff unit))
    (state : State) : Rendered :=
  let backdropOpacity := backdrop state in
  let opacities := animations state in
  let scales := scales props state in
  {| backdrop_onPress := close;
     backdrop_pointerEvents :=
       (if open props then pointer_auto else pointer_none);
     backdrop_opacity := backdropOpacity;
     backdrop_backgroundColor := "#555555";
     column_pointerEvents :=
       (if open props then pointer_box_none else pointer_none);
     items :=
       map_index
         (fun it i =>
            {| item_key := i;
               item_pointerEvents :=
                 (if open props then pointer_box_none else pointer_none);
               item_scale := nth_error scales i;
               item_opacity := nth_error opacities i;
               button_text := text it;
               button_onPress := item_onPress it |})
         0 (actions props);
     fab_onPress := ebind (optional_call onPress) (fun _ => toggle props) |}.

(** The number a scale shows in a store. *)
Definition scale_value (s : Store) (sc : Scale) : option Q :=
  match sc with
  | ScaleNode n => node_getValue s n
  | ScaleFixed x => Some x
  end.

End FABGroupView.

(** ** [FAB.Group]: the life cycle, as the framework drives it *)

Module FABGroupLife.

Import Animated FABGroup.

Record Instance := { props : Props; state : State }.

(** Mounting: the initial state, then the derived state.  The update
    hook does not run. *)
Definition mount (p : Props) : M Instance :=
  st0 <- initialState ;;
  st <- getDerivedStateFromProps p st0 ;;
  ret {| props := p; state := st |}.

(** An update with new props: the derived state, then (after the render)
    the update hook, whose animations run to their end. *)
Definition update (i : Instance) (p : Props) : M Instance :=
  fun s =>
    let (st, s1) := getDerivedStateFromProps p (state i) s in
    ({| props := p; state := st |},
     finish (started_steps p (props i) st) s1).

Fixpoint updates (i : Instance) (ps : list Props) : M Instance :=
  match ps with
  | [] => ret i
  | p :: ps' => i' <- update i p ;; updates i' ps'
  end.

(** Mount with [p0] in the empty store, then apply the props of [ps]. *)
Definition run (p0 : Props) (ps : list Props) : Instance * Store :=
  (i <- mount p0 ;; updates i ps) [].

(** The values of a state are cells of the store, and no two of them are
    the same cell. *)
Definition well_formed (st : State) (s : Store) : Prop :=
  (backdrop st < length s)%nat /\
  Forall (fun r => (r < length s)%nat) (animations st) /\
  NoDup (backdrop st :: animations st).

(** Every progress value of a state shows [x]. *)
Definition all_show (st : State) (s : Store) (x : Q) : Prop :=
  Forall (fun r => getValue s r = Some x) (animations st).

(** A settled instance: its state is well formed, it has one progress
    value per action, every progress value shows the open flag, and the
    backdrop shows 0 or 0.32, and 0 when the group is closed. *)
Definition settled (i : Instance) (s : Store) : Prop :=
  well_formed (state i) s /\
  length (animations (state i)) = length (actions (props i)) /\
  all_show (state i) s (if open (props i) then 1 else 0) /\
  exists b,
    getValue s (backdrop (state i)) = Some b /\
    (b = 0 \/ b = 0.32) /\
    (open (props i) = false -> b = 0).

End FABGroupLife.

(** ** Concrete instances *)

Module Instances.

(** The closed group of [Inputs.group], with its four cells at 0. *)
Definition closed_three : FABGroupLife.Instance :=
  {| FABGroupLife.props := Inputs.group false;
     FABGroupLife.state := Inputs.three |}.

Definition four_cells : Animated.Store := [0; 0; 0; 0].

End Instances.

(** * Properties *)

(** ** Interpolation *)

Module AnimatedFacts.
Import Animated Reference.

Lemma Qle_bool_false (x y : Q) : Qle_bool x y = false <-> y < x.
Proof.
  split; intro H.
  - apply Qnot_le_lt. intro C. apply Qle_bool_iff in C. congruence.
  - destruct (Qle_bool x y) eqn:E; [|reflexivity].
    apply Qle_bool_iff in E. exfalso. apply (Qlt_not_le _ _ H E).
Qed.

(** Evaluate the inverses of closed denominators, so that a goal with
    divisions by constants becomes linear. *)
Ltac fold_inverses :=
  repeat match goal with
    | |- context [ / ?c ] =>
        let c' := eval vm_compute in (/ c) in
        progress change (/ c) with c'
    end.

(** With both sides on [extend], a segment is its straight line, inside
    and outside of the segment. *)
Lemma interpolate_extend (x a b ya yb : Q) :
  ~ a == b ->
  interpolate x a b ya yb extend extend == lerp a b ya yb x.
Proof.
  intro Hab. unfold interpolate, lerp. cbn [is_identity is_clamp].
  rewrite !andb_false_r.
  destruct (Qeq_bool ya yb) eqn:Ey.
  - apply Qeq_bool_iff in Ey. rewrite Ey. field. lra.
  - destruct (Qeq_bool a b) eqn:Ex.
    + apply Qeq_bool_iff in Ex. contradiction.
    + field. lra.
Qed.

(** The segment that [findRange] picks in the shadow's breakpoints. *)
Lemma findRange_breakpoints (x : Q) :
  findRange x breakpoints =
    if Qle_bool x 1 then 0%nat
    else if Qle_bool x 2 then 1%nat
    else if Qle_bool x 3 then 2%nat
    else if Qle_bool x 8 then 3%nat
    else 4%nat.
Proof.
  unfold findRange, breakpoints. cbn [tl findRange_loop].
  destruct (Qle_bool x 1); [reflexivity|].
  destruct (Qle_bool x 2); [reflexivity|].
  destruct (Qle_bool x 3); [reflexivity|].
  destruct (Qle_bool x 8); reflexivity.
Qed.

(** An interpolation over the shadow's breakpoints, with no
    extrapolation option, is the piecewise-linear function with extended
    end segments. *)
Lemma createInterpolation_breakpoints (ys : list Q) (x : Q) :
  createInterpolation (ranges breakpoints ys) x == piecewise ys x.
Proof.
  unfold createInterpolation, piecewise.
  cbn [inputRange outputRange ranges left_of right_of
       extrapolateLeft extrapolateRight extrapolate].
  rewrite findRange_breakpoints.
  destruct (Qle_bool x 1); [|destruct (Qle_bool x 2);
    [|destruct (Qle_bool x 3); [|destruct (Qle_bool x 8)]]];
    cbn [nth breakpoints]; apply interpolate_extend; lra.
Qed.

End AnimatedFacts.

(** ** [shadow] *)

Module ShadowFacts.
Import Animated Shadow Reference AnimatedFacts.

Section WithColors.

Variable Color : Type.
Variable black : Color.

Local Abbreviation shadow := (Shadow.shadow Color black).

(** The static branch at a non-zero elevation: the radius comes from
    the switch, the offset is the literal [{ width: 0, height: 0 }]. *)
Lemma shadow_static_nonzero (e : Q) (s : Store) :
  ~ e == 0 ->
  shadow (Some (Number e)) s =
    (Static
       {| shadowColor := black;
          shadowOffset := {| width := 0; height := 0 |};
          shadowOpacity := 0.35;
          shadowRadius := snd (height_radius e) |}, s).
Proof.
  intro H. unfold Shadow.shadow.
  destruct (Qeq_bool e 0) eqn:E.
  - apply Qeq_bool_iff in E. contradiction.
  - destruct (height_radius e) as [h r]. reflexivity.
Qed.

Lemma shadow_static_zero (e : Q) (s : Store) :
  e == 0 -> shadow (Some (Number e)) s = (Empty, s).
Proof.
  intro H. unfold Shadow.shadow.
  apply Qeq_bool_iff in H. rewrite H. reflexivity.
Qed.

Lemma shadow_default_argument (s : Store) : shadow None s = (Empty, s).
Proof. reflexivity. Qed.

(** The switch: [(0.5, 0.75)] at 1, [(0.75, 1.5)] at 2, and
    [(elevation - 1, elevation)] from 3 on. *)
Lemma height_radius_table (e : Q) :
  (e == 1 -> height_radius e = (0.5, 0.75)) /\
  (e == 2 -> height_radius e = (0.75, 1.5)) /\
  (3 <= e -> height_radius e = (e - 1, e)).
Proof.
  unfold height_radius. repeat split; intro H.
  - apply Qeq_bool_iff in H. rewrite H. reflexivity.
  - destruct (Qeq_bool e 1) eqn:E1.
    + apply Qeq_bool_iff in E1. lra.
    + apply Qeq_bool_iff in H. rewrite H. reflexivity.
  - destruct (Qeq_bool e 1) eqn:E1; [apply Qeq_bool_iff in E1; lra|].
    destruct (Qeq_bool e 2) eqn:E2; [apply Qeq_bool_iff in E2; lra|].
    reflexivity.
Qed.

(** C1, at elevation 1: the switch computes the height 0.5 and the
    radius 0.75, and the returned style has the radius 0.75, the
    opacity 0.35, the fixed color and offset-width 0, but its
    offset-height is 0, not 0.5. *)
Theorem shadow_static_elevation_1_drops_height (s : Store) :
  height_radius 1 = (0.5, 0.75) /\
  shadow (Some (Number 1)) s =
    (Static
       {| shadowColor := black;
          shadowOffset := {| width := 0; height := 0 |};
          shadowOpacity := 0.35;
          shadowRadius := 0.75 |}, s) /\
  ~ 0 == 0.5.
Proof.
  split; [reflexivity|]. split; [reflexivity|]. lra.
Qed.

(** C2: at every non-zero constant elevation the returned style has
    the offset [{ width: 0, height: 0 }], whatever height the switch
    computes. *)
Theorem shadow_static_offset_zero (e : Q) (s : Store) :
  ~ e == 0 ->
  exists st,
    shadow (Some (Number e)) s = (Static st, s) /\
    shadowOffset st = {| width := 0; height := 0 |}.
Proof.
  intro H. eexists. split.
  - apply shadow_static_nonzero. exact H.
  - reflexivity.
Qed.

(** The dynamic branch: two fresh values (offset-width 0, opacity
    0.35) and two interpolations of the elevation over the
    breakpoints, with no extrapolation option. *)
Lemma shadow_dynamic (v : Value) (s : Store) :
  shadow (Some (AnimatedValue v)) s =
    (Dynamic
       {| shadowColor := black;
          shadowOffset :=
            {| width := NValue (length s);
               height :=
                 NInterpolation (NValue v)
                   (ranges breakpoints height_outputs) |};
          shadowOpacity := NValue (S (length s));
          shadowRadius :=
            NInterpolation (NValue v)
              (ranges breakpoints radius_outputs) |},
     s ++ [0; 0.35]).
Proof.
  unfold Shadow.shadow, bind, new_Value, ret, Value_interpolate,
    SHADOW_OPACITY, SHADOW_COLOR.
  rewrite length_app, <- app_assoc. cbn [length app].
  rewrite Nat.add_1_r. reflexivity.
Qed.

Lemma getValue_app_old (s t : Store) (v : Value) (x : Q) :
  getValue s v = Some x -> getValue (s ++ t) v = Some x.
Proof.
  unfold getValue. intro H. rewrite nth_error_app1; [exact H|].
  apply nth_error_Some. congruence.
Qed.

Lemma getValue_app_new (s t : Store) (k : nat) :
  getValue (s ++ t) (length s + k)%nat = nth_error t k.
Proof.
  unfold getValue. rewrite nth_error_app2 by lia.
  f_equal. lia.
Qed.

(** C4, amended: for a dynamic elevation that shows [x], offset-height
    and radius are interpolations of the elevation over the
    breakpoints {0,1,2,3,8,24} with the outputs {0,0.1,0.5,0.75,2,7}
    and {0,1,2.5,5,12,24}; they show the piecewise-linear value on the
    segment of [x], the end segments being extended (not clamped)
    beyond the table; at 8 they show 2 and 12, at 16 values strictly
    between 2 and 7 and between 12 and 24; opacity shows 0.35 and
    offset-width 0. *)
Theorem shadow_dynamic_interpolation (v : Value) (s : Store) (x : Q) :
  getValue s v = Some x ->
  exists st s' h r,
    shadow (Some (AnimatedValue v)) s = (Dynamic st, s') /\
    height (shadowOffset st) =
      Value_interpolate v (ranges [0; 1; 2; 3; 8; 24] [0; 0.1; 0.5; 0.75; 2; 7]) /\
    shadowRadius st =
      Value_interpolate v (ranges [0; 1; 2; 3; 8; 24] [0; 1; 2.5; 5; 12; 24]) /\
    node_getValue s' (shadowOpacity st) = Some 0.35 /\
    node_getValue s' (width (shadowOffset st)) = Some 0 /\
    node_getValue s' (height (shadowOffset st)) = Some h /\
    node_getValue s' (shadowRadius st) = Some r /\
    h == piecewise height_outputs x /\
    r == piecewise radius_outputs x /\
    (x == 8 -> h == 2 /\ r == 12) /\
    (x == 16 -> 2 < h < 7 /\ 12 < r < 24) /\
    (24 < x -> 7 < h /\ 24 < r) /\
    (x < 0 -> h < 0 /\ r < 0).
Proof.
  intro Hx. rewrite shadow_dynamic.
  do 2 eexists.
  exists (createInterpolation (ranges breakpoints height_outputs) x),
         (createInterpolation (ranges breakpoints radius_outputs) x).
  split; [reflexivity|].
  cbn [shadowOffset shadowRadius shadowOpacity height width node_getValue].
  split; [reflexivity|]. split; [reflexivity|].
  split.
  { replace (S (length s)) with (length s + 1)%nat by lia.
    rewrite getValue_app_new. reflexivity. }
  split.
  { rewrite <- (Nat.add_0_r (length s)) at 1.
    rewrite getValue_app_new. reflexivity. }
  rewrite (getValue_app_old s _ v x Hx). cbn [option_map].
  split; [reflexivity|]. split; [reflexivity|].
  rewrite !createInterpolation_breakpoints.
  split; [reflexivity|]. split; [reflexivity|].
  unfold piecewise, lerp, height_outputs, radius_outputs, Qdiv. cbn [nth].
  repeat split; intros;
    destruct (Qle_bool x 1) eqn:E1;
    try (apply Qle_bool_iff in E1); try (apply Qle_bool_false in E1);
    try lra;
    destruct (Qle_bool x 2) eqn:E2;
    try (apply Qle_bool_iff in E2); try (apply Qle_bool_false in E2);
    try lra;
    destruct (Qle_bool x 3) eqn:E3;
    try (apply Qle_bool_iff in E3); try (apply Qle_bool_false in E3);
    try lra;
    destruct (Qle_bool x 8) eqn:E8;
    try (apply Qle_bool_iff in E8); try (apply Qle_bool_false in E8);
    try lra; fold_inverses; lra.
Qed.

End WithColors.

Lemma shadow_static_offset_zero_witness :
  ~ 5 == 0 /\
  exists st,
    Shadow.shadow string "black"%string (Some (Number 5)) [] = (Static st, []) /\
    shadowOffset st = {| width := 0; height := 0 |}.
Proof.
  split; [lra|].
  apply (shadow_static_offset_zero string "black"%string 5 []). lra.
Defined.

Lemma shadow_dynamic_interpolation_witness :
  getValue [16] 0%nat = Some 16 /\
  exists st s' h r,
    Shadow.shadow string "black"%string (Some (AnimatedValue 0%nat)) [16]
      = (Dynamic st, s') /\
    height (shadowOffset st) =
      Value_interpolate 0%nat (ranges [0; 1; 2; 3; 8; 24] [0; 0.1; 0.5; 0.75; 2; 7]) /\
    shadowRadius st =
      Value_interpolate 0%nat (ranges [0; 1; 2; 3; 8; 24] [0; 1; 2.5; 5; 12; 24]) /\
    node_getValue s' (shadowOpacity st) = Some 0.35 /\
    node_getValue s' (width (shadowOffset st)) = Some 0 /\
    node_getValue s' (height (shadowOffset st)) = Some h /\
    node_getValue s' (shadowRadius st) = Some r /\
    h == piecewise height_outputs 16 /\
    r == piecewise radius_outputs 16 /\
    (16 == 8 -> h == 2 /\ r == 12) /\
    (16 == 16 -> 2 < h < 7 /\ 12 < r < 24) /\
    (24 < 16 -> 7 < h /\ 24 < r) /\
    (16 < 0 -> h < 0 /\ r < 0).
Proof.
  split; [reflexivity|].
  apply (shadow_dynamic_interpolation string "black"%string 0%nat [16] 16).
  reflexivity.
Defined.

(** C4 as stated fails beyond the table: at the input 48 the
    offset-height shows 14.5 and the radius 42, where clamping at the
    table's end would give 7 and 24. *)
Lemma shadow_dynamic_not_clamped :
  exists st s' h r,
    Shadow.shadow string "black"%string (Some (AnimatedValue 0%nat)) [48]
      = (Dynamic st, s') /\
    node_getValue s' (height (shadowOffset st)) = Some h /\
    node_getValue s' (shadowRadius st) = Some r /\
    h == 14.5 /\ r == 42 /\
    piecewise_clamped height_outputs 48 == 7 /\
    piecewise_clamped radius_outputs 48 == 24 /\
    ~ h == piecewise_clamped height_outputs 48 /\
    ~ r == piecewise_clamped radius_outputs 48.
Proof.
  do 4 eexists.
  split; [apply shadow_dynamic|].
  split; [reflexivity|]. split; [reflexivity|].
  repeat split; try (vm_compute; reflexivity);
    intro H; vm_compute in H; discriminate H.
Qed.

End ShadowFacts.

(** ** [CrossFadeIcon] *)

Module CrossFadeIconFacts.
Import Animated CrossFadeIcon Reference AnimatedFacts Inputs.

Section WithIcons.

Variable IconSource : Type.
Variable eq_dec : forall a b : IconSource, {a = b} + {a <> b}.
Variable truthy : IconSource -> bool.

Implicit Types (p : Props IconSource) (st : State IconSource)
  (i : Instance IconSource) (ps : list (Props IconSource)).

(** *** The derived state *)

Lemma derived_currentIcon_is_source p st :
  currentIcon (merge st (getDerivedStateFromProps eq_dec p st)) = source p.
Proof.
  unfold getDerivedStateFromProps.
  destruct (eq_dec (currentIcon st) (source p)) as [E|E]; [exact E|reflexivity].
Qed.

Lemma derived_same_icon p st :
  source p = currentIcon st ->
  merge st (getDerivedStateFromProps eq_dec p st) = st.
Proof.
  intro E. unfold getDerivedStateFromProps.
  destruct (eq_dec (currentIcon st) (source p)); [reflexivity|congruence].
Qed.

Lemma derived_new_icon p st :
  source p <> currentIcon st ->
  previousIcon (merge st (getDerivedStateFromProps eq_dec p st))
    = Some (currentIcon st).
Proof.
  intro E. unfold getDerivedStateFromProps.
  destruct (eq_dec (currentIcon st) (source p)); [congruence|reflexivity].
Qed.

(** *** Sequences of updates *)

Lemma last_cons_default {A} (a d : A) (l : list A) :
  last (a :: l) d = last l a.
Proof.
  revert a d. induction l as [|b l IH]; intros a d; [reflexivity|].
  change (last (a :: b :: l) d) with (last (b :: l) d).
  rewrite (IH b d), (IH b a). reflexivity.
Qed.

Lemma updates_currentIcon ps : forall i s,
  currentIcon (state (fst (updates eq_dec i ps s)))
    = match ps with
      | [] => currentIcon (state i)
      | _ => source (last ps (props i))
      end.
Proof.
  induction ps as [|p ps IH]; intros i s; [reflexivity|].
  cbn [updates]. unfold update at 1. rewrite IH.
  destruct ps as [|q ps].
  - cbn [state last]. apply derived_currentIcon_is_source.
  - rewrite (last_cons_default p (props i)).
    cbn [props]. rewrite (last_cons_default q p). reflexivity.
Qed.

Lemma updates_same_icon ps : forall i s,
  (forall p, In p ps -> source p = currentIcon (state i)) ->
  state (fst (updates eq_dec i ps s)) = state i.
Proof.
  induction ps as [|p ps IH]; intros i s H; [reflexivity|].
  cbn [updates]. unfold update at 1.
  assert (E : merge (state i) (getDerivedStateFromProps eq_dec p (state i))
              = state i).
  { apply derived_same_icon, H. left. reflexivity. }
  rewrite IH.
  - cbn [state]. exact E.
  - cbn [state]. rewrite E. intros q Hq. apply H. right. exact Hq.
Qed.

(** Either every later icon equals the first one, or somewhere an icon
    differs from the one before it. *)
Lemma same_or_change (a : IconSource) (l : list IconSource) :
  (forall x, In x l -> x = a) \/
  (exists k u v,
      nth_error (a :: l) k = Some u /\
      nth_error (a :: l) (S k) = Some v /\ u <> v).
Proof.
  revert a. induction l as [|b l IH]; intro a.
  - left. intros x [].
  - destruct (eq_dec a b) as [E|E].
    + subst b. destruct (IH a) as [H|(k & u & v & H1 & H2 & H3)].
      * left. intros x [<-|Hx]; [reflexivity|apply H, Hx].
      * right. exists (S k), u, v.
        split; [exact H1|]. split; [exact H2|exact H3].
    + right. exists 0%nat, a, b.
      split; [reflexivity|]. split; [reflexivity|exact E].
Qed.

Lemma mount_instance (p0 : Props IconSource) :
  mount eq_dec p0 [] =
    ({| props := p0;
        state := {| currentIcon := source p0; previousIcon := None;
                    fade := 0%nat |} |}, [0]).
Proof.
  unfold mount, initialState, bind, new_Value, ret. cbn [length app].
  rewrite derived_same_icon by reflexivity. reflexivity.
Qed.

(** After every sequence of props the render shows the most recently
    supplied icon; as long as every supplied icon equals the first one
    the rotation is the fixed 0 degrees; and the rotation can be other
    than the fixed 0 degrees only if somewhere in the sequence an icon
    differed from the one supplied before it. *)
Lemma run_latest_icon_and_first_change (p0 : Props IconSource) ps :
  icon_source (view truthy (fst (run eq_dec p0 ps))) = source (last ps p0) /\
  ((forall p, In p ps -> source p = source p0) ->
   rotate (view truthy (fst (run eq_dec p0 ps))) = RotateFixed 0) /\
  (rotate (view truthy (fst (run eq_dec p0 ps))) <> RotateFixed 0 ->
   exists k p q,
     nth_error (p0 :: ps) k = Some p /\
     nth_error (p0 :: ps) (S k) = Some q /\
     source p <> source q).
Proof.
  unfold run. rewrite mount_instance.
  set (i0 := {| props := p0; state := _ |}).
  assert (Hsame : (forall p, In p ps -> source p = source p0) ->
            rotate (view truthy (fst (updates eq_dec i0 ps [0])))
            = RotateFixed 0).
  { intro H. unfold view, render.
    rewrite (updates_same_icon ps i0 [0]) by exact H. reflexivity. }
  split; [|split].
  - unfold view, render. cbn [icon_source].
    rewrite updates_currentIcon. destruct ps; reflexivity.
  - exact Hsame.
  - intro Hrot.
    destruct (same_or_change (source p0) (map source ps))
      as [H|(k & u & v & H1 & H2 & H3)].
    + exfalso. apply Hrot, Hsame. intros p Hp. apply H.
      apply in_map. exact Hp.
    + change (source p0 :: map source ps)
        with (map source (p0 :: ps)) in H1, H2.
      rewrite nth_error_map in H1, H2.
      destruct (nth_error (p0 :: ps) k) as [p|] eqn:Ek; [|discriminate].
      destruct (nth_error (p0 :: ps) (S k)) as [q|] eqn:Eq; [|discriminate].
      exists k, p, q. cbn [option_map] in H1, H2.
      repeat split; congruence.
Qed.

(** *** The update hook *)

(** C9: an update starts exactly one animation, a timing of the
    shared [fade] value toward 1 when [isOpen] holds and toward 0
    otherwise, whose duration is 200 times the theme's scale; this
    holds for every update, so also for those whose state changed. *)
Theorem componentDidUpdate_single_timing p (prevState st : State IconSource) :
  exists a d,
    componentDidUpdate p prevState st = [a] /\
    a = timing (fade st) (if isOpen p then 1 else 0) d /\
    d == 200 * theme_animation_scale p /\
    start a =
      [{| step_value := fade st; step_start := 0;
          step_toValue := (if isOpen p then 1 else 0);
          step_duration := d |}].
Proof.
  exists (timing (fade st) (if isOpen p then 1 else 0)
            (theme_animation_scale p * 200)),
         (theme_animation_scale p * 200).
  split; [reflexivity|]. split; [reflexivity|].
  split; [ring|reflexivity].
Qed.

(** *** The render *)

Lemma createInterpolation_degrees (x : Q) :
  createInterpolation (ranges [0; 1] [0; 45]) x == lerp 0 1 0 45 x.
Proof.
  unfold createInterpolation.
  cbn [inputRange outputRange ranges left_of right_of
       extrapolateLeft extrapolateRight extrapolate].
  unfold findRange. cbn [tl findRange_loop Nat.sub nth].
  apply interpolate_extend. lra.
Qed.

(** C10, amended: the render holds the current icon only; with a
    recorded previous icon that is truthy its rotation is the
    interpolation of [fade] over [[0, 1]] to [[0, 45]] degrees, which
    shows the linear value through 0 at 0 and 45 at 1; with no previous
    icon, and with a recorded previous icon that is falsy, it is the
    fixed 0 degrees. *)
Theorem render_rotation p st :
  icon_source (render truthy p st) = currentIcon st /\
  (previousIcon st = None -> rotate (render truthy p st) = RotateFixed 0) /\
  (truthy_opt truthy (previousIcon st) = false ->
   rotate (render truthy p st) = RotateFixed 0) /\
  (forall prev,
      previousIcon st = Some prev -> truthy prev = true ->
      rotate (render truthy p st) =
        RotateNode
          (Value_interpolate (fade st) (ranges [0; 1] [0; 45])) /\
      forall s x,
        getValue s (fade st) = Some x ->
        exists a,
          angle s (rotate (render truthy p st)) = Some a /\
          a == lerp 0 1 0 45 x /\ a == 45 * x) /\
  lerp 0 1 0 45 0 == 0 /\ lerp 0 1 0 45 1 == 45.
Proof.
  split; [reflexivity|]. unfold render. cbn [rotate].
  split; [intros ->; reflexivity|].
  split; [intros ->; reflexivity|].
  split; [|split; vm_compute; reflexivity].
  intros prev Hprev Ht. rewrite Hprev. cbn [truthy_opt]. rewrite Ht.
  split; [reflexivity|].
  intros s x Hx.
  exists (createInterpolation (ranges [0; 1] [0; 45]) x).
  split.
  - unfold angle, Value_interpolate. cbn [node_getValue].
    rewrite Hx. reflexivity.
  - rewrite createInterpolation_degrees. split; [reflexivity|].
    unfold lerp. field.
Qed.

End WithIcons.

(** C3 as stated fails: mount with the icon "plus", then supply "star"
    twice.  The last two supplied icons are equal, yet the previous icon
    "plus" is still recorded: the rotation is bound to the interpolation
    of [fade], and shows 45 degrees once the animation has run. *)
Lemma crossfade_rotation_after_repeated_icon :
  ~ Stated.rotation_fixed_when_last_two_equal string string_dec nonempty /\
  (let (i, s) := run string_dec plus [star; star] in
   icon_source (view nonempty i) = "star"%string /\
   previousIcon (state i) = Some "plus"%string /\
   rotate (view nonempty i) =
     RotateNode (Value_interpolate (fade (state i)) (ranges [0; 1] [0; 45])) /\
   exists a, angle s (rotate (view nonempty i)) = Some a /\ a == 45).
Proof.
  split.
  - intro H.
    specialize (H plus [star; star] [plus] star star eq_refl eq_refl).
    vm_compute in H. discriminate H.
  - vm_compute. repeat split. eexists. split; reflexivity.
Qed.

End CrossFadeIconFacts.

(** ** [FAB.Group] *)

Module FABGroupFacts.
Import Animated FABGroup Reference Inputs.

(** *** The derived state *)

Lemma animation_at_old prev open i v s :
  nth_error prev i = Some v -> animation_at prev open i s = (v, s).
Proof. unfold animation_at. intros ->. reflexivity. Qed.

Lemma animation_at_new prev open i s :
  nth_error prev i = None ->
  animation_at prev open i s = (length s, s ++ [if open then 1 else 0]).
Proof. unfold animation_at. intros ->. reflexivity. Qed.

Lemma derive_animations_cons a acts i prev open s :
  derive_animations (a :: acts) i prev open s =
    let (v, s1) := animation_at prev open i s in
    let (l, s2) := derive_animations acts (S i) prev open s1 in
    (v :: l, s2).
Proof. reflexivity. Qed.

(** The derived list, entry by entry: an entry that [prev] has is kept,
    a missing one is a fresh value that holds 1 or 0; the store only
    grows. *)
Lemma derive_animations_spec acts : forall i prev open s,
  exists news,
    snd (derive_animations acts i prev open s) = s ++ news /\
    length (fst (derive_animations acts i prev open s)) = length acts /\
    forall k, (k < length acts)%nat ->
      match nth_error prev (i + k) with
      | Some v => nth_error (fst (derive_animations acts i prev open s)) k = Some v
      | None =>
          exists r,
            nth_error (fst (derive_animations acts i prev open s)) k = Some r /\
            (length s <= r)%nat /\
            getValue (s ++ news) r = Some (if open then 1 else 0)
      end.
Proof.
  induction acts as [|a acts IH]; intros i prev open s.
  - exists []. rewrite app_nil_r. cbn. repeat split. intros k Hk. lia.
  - rewrite derive_animations_cons.
    destruct (nth_error prev i) as [v|] eqn:Ei.
    + rewrite (animation_at_old _ _ _ _ _ Ei).
      destruct (IH (S i) prev open s) as (news & Hs & Hl & Hk).
      destruct (derive_animations acts (S i) prev open s) as [l s'] eqn:El.
      cbn [fst snd] in *.
      exists news. split; [exact Hs|]. split; [cbn; lia|].
      intros [|k] Hlt.
      * rewrite Nat.add_0_r, Ei. reflexivity.
      * replace (i + S k)%nat with (S i + k)%nat by lia.
        cbn [nth_error length] in *. apply Hk. lia.
    + rewrite (animation_at_new _ _ _ _ Ei).
      destruct (IH (S i) prev open (s ++ [if open then 1 else 0]))
        as (news & Hs & Hl & Hk).
      destruct (derive_animations acts (S i) prev open
                  (s ++ [if open then 1 else 0])) as [l s'] eqn:El.
      cbn [fst snd] in *.
      exists ((if open then 1 else 0) :: news).
      rewrite <- app_assoc in Hs. cbn [app] in Hs.
      split; [exact Hs|]. split; [cbn; lia|].
      intros [|k] Hlt.
      * rewrite Nat.add_0_r, Ei. exists (length s).
        split; [reflexivity|]. split; [lia|].
        unfold getValue. rewrite nth_error_app2 by lia.
        rewrite Nat.sub_diag. reflexivity.
      * replace (i + S k)%nat with (S i + k)%nat by lia.
        cbn [nth_error length] in *.
        specialize (Hk k ltac:(lia)).
        destruct (nth_error prev (S i + k)) as [v|]; [exact Hk|].
        destruct Hk as (r & H1 & H2 & H3).
        exists r. split; [exact H1|]. rewrite length_app in H2. cbn in H2.
        split; [lia|].
        rewrite <- app_assoc in H3. exact H3.
Qed.

(** C5: after the state is derived, there is one progress value per
    action; a position that had a value keeps that value (the same
    object, showing the same number), and a new position gets a fresh
    value that shows 1 if the group is open and 0 if it is closed. *)
Theorem derived_animations_match_actions
    (nextProps : Props) (prevState : State) (s : Store) :
  let st := fst (getDerivedStateFromProps nextProps prevState s) in
  let s' := snd (getDerivedStateFromProps nextProps prevState s) in
  length (animations st) = length (actions nextProps) /\
  backdrop st = backdrop prevState /\
  (forall k v,
      (k < length (actions nextProps))%nat ->
      nth_error (animations prevState) k = Some v ->
      nth_error (animations st) k = Some v /\
      forall x, getValue s v = Some x -> getValue s' v = Some x) /\
  (forall k,
      (length (animations prevState) <= k < length (actions nextProps))%nat ->
      exists v,
        nth_error (animations st) k = Some v /\
        getValue s v = None /\
        getValue s' v = Some (if open nextProps then 1 else 0)).
Proof.
  unfold getDerivedStateFromProps, bind.
  destruct (derive_animations_spec (actions nextProps) 0
              (animations prevState) (open nextProps) s)
    as (news & Hs & Hl & Hk).
  destruct (derive_animations (actions nextProps) 0 (animations prevState)
              (open nextProps) s) as [l s1] eqn:El.
  cbn [fst snd ret animations backdrop] in *. subst s1.
  split; [exact Hl|]. split; [reflexivity|]. split.
  - intros k v Hlt Hv. specialize (Hk k Hlt). cbn [Nat.add] in Hk.
    rewrite Hv in Hk. split; [exact Hk|].
    intros x Hx. unfold getValue in *.
    rewrite nth_error_app1; [exact Hx|]. apply nth_error_Some. congruence.
  - intros k [Hge Hlt]. specialize (Hk k Hlt). cbn [Nat.add] in Hk.
    apply nth_error_None in Hge. rewrite Hge in Hk.
    destruct Hk as (r & H1 & H2 & H3).
    exists r. split; [exact H1|]. split; [|exact H3].
    apply nth_error_None. exact H2.
Qed.

(** *** The update hook *)

Lemma nth_error_map_index {A B} (f : A -> nat -> B) (l : list A) :
  forall i k,
    nth_error (map_index f i l) k
    = option_map (fun a => f a (i + k)%nat) (nth_error l k).
Proof.
  induction l as [|a l IH]; intros i [|k]; cbn; try reflexivity.
  - rewrite Nat.add_0_r. reflexivity.
  - rewrite IH. replace (S i + k)%nat with (i + S k)%nat by lia. reflexivity.
Qed.

Lemma length_map_index {A B} (f : A -> nat -> B) (l : list A) :
  forall i, length (map_index f i l) = length l.
Proof. induction l as [|a l IH]; intro i; cbn; [|rewrite IH]; reflexivity. Qed.

(** A stagger of timings: the [k]-th timing starts [k] times the
    stagger time after the start. *)
Lemma schedule_staggered_timings (t0 time to d : Q) (rs : list Value) :
  forall i,
    schedule t0
      (parallel
         (map_index
            (fun animation i =>
               sequence [delay (time * inject_Z (Z.of_nat i)); animation])
            i (map (fun r => timing r to d) rs)))
    = map_index (staggered t0 time to d) i rs.
Proof.
  induction rs as [|r rs IH]; intro i; [reflexivity|].
  cbn [map map_index].
  change (schedule t0 (parallel (?x :: ?l)))
    with (schedule t0 x ++ schedule t0 (parallel l)).
  rewrite IH. reflexivity.
Qed.

Lemma map_step_value_staggered (t0 time to d : Q) (l : list Value) :
  forall i, map step_value (map_index (staggered t0 time to d) i l) = l.
Proof. induction l as [|r l IH]; intro i; cbn; [|rewrite IH]; reflexivity. Qed.

Lemma nth_error_staggered (t0 time to d : Q) (l : list Value) (k : nat) :
  nth_error (map_index (staggered t0 time to d) 0 l) k
  = option_map (fun r => staggered t0 time to d r k) (nth_error l k).
Proof. rewrite nth_error_map_index. reflexivity. Qed.

Lemma close_requests_snoc (es : list Event) :
  close_requests (es ++ [StateChange false]) = S (close_requests es).
Proof.
  induction es as [|[[]|] es IH]; cbn; [reflexivity| | |]; rewrite IH;
    reflexivity.
Qed.

(** What an update that changes the open flag starts: the backdrop
    transition, and one staggered transition per progress value, over
    the reversed list when opening and over the list itself when
    closing. *)
Lemma started_steps_on_transition (props prevProps : Props) (st : State) :
  open props <> open prevProps ->
  started_steps props prevProps st =
    {| step_value := backdrop st;
       step_start := 0;
       step_toValue := (if open props then 0.32 else 0);
       step_duration :=
         (if open props then 250 * theme_animation_scale props
          else 200 * theme_animation_scale props) |}
    :: map_index
         (staggered 0 (50 * theme_animation_scale props)
            (if open props then 1 else 0)
            (150 * theme_animation_scale props))
         0 (if open props then rev (animations st) else animations st).
Proof.
  intro H. unfold started_steps, componentDidUpdate.
  destruct (Bool.eqb (open props) (open prevProps)) eqn:E.
  - apply Bool.eqb_prop in E. contradiction.
  - destruct (open props); cbn [flat_map]; rewrite app_nil_r;
      unfold start, stagger;
      change (schedule 0 (parallel [?x; ?y]))
        with (schedule 0 x ++ schedule 0 y ++ []);
      rewrite app_nil_r; try rewrite <- map_rev;
      rewrite schedule_staggered_timings; reflexivity.
Qed.

Lemma started_steps_unchanged (props prevProps : Props) (st : State) :
  open props = open prevProps -> started_steps props prevProps st = [].
Proof.
  intro H. unfold started_steps, componentDidUpdate.
  rewrite H, Bool.eqb_reflx. reflexivity.
Qed.

(** C6: on a transition of the open flag the per-item transitions are
    staggered over the reversed list of progress values when opening
    and over the list itself when closing: the [k]-th of them starts
    [k] times 50 x scale after the start, so the value of the action [i]
    starts at offset 50 x scale x (n - 1 - i) when opening (the last
    action at 0) and at 50 x scale x i when closing (the first action at
    0); with a scale that is not negative, an earlier member of the
    stagger never starts after a later one. *)
Theorem stagger_order (props prevProps : Props) (st : State) :
  open props <> open prevProps ->
  exists b items,
    started_steps props prevProps st = b :: items /\
    map step_value items =
      (if open props then rev (animations st) else animations st) /\
    (forall k s,
        nth_error items k = Some s ->
        step_start s ==
          50 * theme_animation_scale props * inject_Z (Z.of_nat k)) /\
    (forall i v,
        nth_error (animations st) i = Some v ->
        let k := if open props then (length (animations st) - 1 - i)%nat
                 else i in
        exists s,
          nth_error items k = Some s /\
          step_value s = v /\
          step_start s ==
            50 * theme_animation_scale props * inject_Z (Z.of_nat k)) /\
    (0 <= theme_animation_scale props ->
     forall k k' s s',
       (k <= k')%nat ->
       nth_error items k = Some s ->
       nth_error items k' = Some s' ->
       step_start s <= step_start s').
Proof.
  intro H. rewrite (started_steps_on_transition _ _ _ H).
  set (l := if open props then rev (animations st) else animations st).
  do 2 eexists. split; [reflexivity|].
  split; [apply map_step_value_staggered|]. split; [|split].
  - intros k s Hs. rewrite nth_error_staggered in Hs.
    destruct (nth_error l k); [|discriminate].
    injection Hs as <-. cbn [staggered step_start]. ring.
  - intros i v Hv k.
    assert (Hi : (i < length (animations st))%nat)
      by (apply nth_error_Some; congruence).
    exists (staggered 0 (50 * theme_animation_scale props)
              (if open props then 1 else 0)
              (150 * theme_animation_scale props) v k).
    split; [|split; [reflexivity|cbn [staggered step_start]; ring]].
    rewrite nth_error_staggered.
    replace (nth_error l k) with (Some v); [reflexivity|].
    subst l k. destruct (open props); [|symmetry; exact Hv].
    rewrite nth_error_rev.
    destruct (Nat.ltb_spec (length (animations st) - 1 - i)
                (length (animations st))) as [_|C]; [|lia].
    rewrite <- Hv. f_equal. lia.
  - intros Hscale k k' s s' Hk Hs Hs'.
    rewrite nth_error_staggered in Hs, Hs'.
    destruct (nth_error l k); [|discriminate].
    destruct (nth_error l k'); [|discriminate].
    injection Hs as <-. injection Hs' as <-. cbn [staggered step_start].
    assert (Hz : inject_Z (Z.of_nat k) <= inject_Z (Z.of_nat k'))
      by (rewrite <- Zle_Qle; lia).
    nra.
Qed.


(** *** Pressing an item *)

(** C8, amended: the handler of an item runs the item's own callback
    first; when the callback returns, the handler then issues exactly
    one close request, whatever the callback did itself; when the
    callback throws, the handler ends there and issues none. *)
Theorem item_onPress_then_close (it : Action) :
  item_onPress it =
    match onPress it tt with
    | (es, Returned _) => (es ++ [StateChange false], Returned tt)
    | (es, Thrown) => (es, Thrown)
    end /\
  close_requests (fst (item_onPress it)) =
    match snd (onPress it tt) with
    | Returned _ => S (close_requests (fst (onPress it tt)))
    | Thrown => close_requests (fst (onPress it tt))
    end.
Proof.
  unfold item_onPress, ebind, close, onStateChange.
  destruct (onPress it tt) as [es [[]|]]; cbn [fst snd].
  - split; [reflexivity|]. apply close_requests_snoc.
  - split; reflexivity.
Qed.

(** C8 as stated fails: the handler of an item whose callback throws
    issues no close request. *)
Lemma item_onPress_throwing_callback :
  ~ Stated.close_requested_whatever_happens /\
  item_onPress failing = ([Other 7], Thrown) /\
  close_requests (fst (item_onPress failing)) = 0%nat.
Proof.
  split; [|split; reflexivity].
  intro H. specialize (H failing). discriminate H.
Qed.

Lemma stagger_order_witness :
  open (group true) <> open (group false) /\
  exists b items,
    started_steps (group true) (group false) three = b :: items /\
    map step_value items =
      (if open (group true) then rev (animations three) else animations three) /\
    (forall k s,
        nth_error items k = Some s ->
        step_start s ==
          50 * theme_animation_scale (group true) * inject_Z (Z.of_nat k)) /\
    (forall i v,
        nth_error (animations three) i = Some v ->
        let k := if open (group true)
                 then (length (animations three) - 1 - i)%nat else i in
        exists s,
          nth_error items k = Some s /\
          step_value s = v /\
          step_start s ==
            50 * theme_animation_scale (group true) * inject_Z (Z.of_nat k)) /\
    (0 <= theme_animation_scale (group true) ->
     forall k k' s s',
       (k <= k')%nat ->
       nth_error items k = Some s ->
       nth_error items k' = Some s' ->
       step_start s <= step_start s').
Proof.
  split; [discriminate|].
  apply (stagger_order (group true) (group false) three). discriminate.
Defined.


End FABGroupFacts.

(** ** [CrossFadeIcon]: further properties of the derived state and of runs *)

Module CrossFadeIconRuns.

Import Animated CrossFadeIcon Reference AnimatedFacts CrossFadeIconFacts.

Section WithIcons.

Variable IconSource : Type.
Variable eq_dec : forall a b : IconSource, {a = b} + {a <> b}.
Variable truthy : IconSource -> bool.

Implicit Types (p : Props IconSource) (st : State IconSource)
  (i : Instance IconSource) (ps : list (Props IconSource)).

Lemma update_state i p s :
  state (fst (update eq_dec i p s))
  = merge (state i) (getDerivedStateFromProps eq_dec p (state i)).
Proof. reflexivity. Qed.

Lemma updates_cons i p ps s :
  updates eq_dec i (p :: ps) s
  = updates eq_dec (fst (update eq_dec i p s)) ps (snd (update eq_dec i p s)).
Proof. cbn [updates]. destruct (update eq_dec i p s). reflexivity. Qed.

(** Supplying the same props a second time changes nothing in the
    state: neither the current nor the previous icon moves. *)
Theorem update_same_props_twice i p s s' :
  state (fst (update eq_dec (fst (update eq_dec i p s)) p s'))
  = state (fst (update eq_dec i p s)).
Proof.
  rewrite (update_state (fst (update eq_dec i p s))).
  apply derived_same_icon. rewrite update_state.
  symmetry. apply derived_currentIcon_is_source.
Qed.

(** Where the previous icon of the final state comes from. *)
Lemma updates_previous_origin ps : forall i s q,
  previousIcon (state (fst (updates eq_dec i ps s))) = Some q ->
  previousIcon (state i) = Some q \/
  q = currentIcon (state i) \/
  In q (map source ps).
Proof.
  induction ps as [|p ps IH]; intros i s q H; [left; exact H|].
  rewrite updates_cons in H. apply IH in H. rewrite update_state in H.
  unfold getDerivedStateFromProps in H.
  destruct (eq_dec (currentIcon (state i)) (source p)) as [E|E];
    cbn [merge currentIcon previousIcon derived_currentIcon
         derived_previousIcon] in H.
  - destruct H as [H|[H|H]]; [left; exact H|right; left; exact H|].
    right. right. right. exact H.
  - destruct H as [H|[H|H]].
    + right. left. congruence.
    + right. right. left. congruence.
    + right. right. right. exact H.
Qed.

Lemma updates_previous_differs ps : forall i s,
  (forall q, previousIcon (state i) = Some q -> q <> currentIcon (state i)) ->
  forall q,
    previousIcon (state (fst (updates eq_dec i ps s))) = Some q ->
    q <> currentIcon (state (fst (updates eq_dec i ps s))).
Proof.
  induction ps as [|p ps IH]; intros i s Hi q H; [apply Hi, H|].
  rewrite updates_cons in *. revert q H. apply IH.
  intros q. rewrite update_state. unfold getDerivedStateFromProps.
  destruct (eq_dec (currentIcon (state i)) (source p)) as [E|E];
    cbn [merge currentIcon previousIcon derived_currentIcon
         derived_previousIcon].
  - apply Hi.
  - intros [= <-]. exact E.
Qed.

(** After every sequence of props, a recorded previous icon is one of
    the icons that were supplied, and it differs from the icon that is
    shown. *)
Theorem previous_icon_differs_from_current (p0 : Props IconSource) ps q :
  previousIcon (state (fst (run eq_dec p0 ps))) = Some q ->
  q <> currentIcon (state (fst (run eq_dec p0 ps))) /\
  In q (map source (p0 :: ps)).
Proof.
  unfold run. rewrite mount_instance. intro H. split.
  - revert q H. apply updates_previous_differs. cbn. discriminate.
  - apply updates_previous_origin in H. cbn in H.
    destruct H as [H|[H|H]]; [discriminate|left; congruence|right; exact H].
Qed.

(** Once a previous icon is recorded, no update removes it. *)
Lemma updates_previous_kept ps : forall i s,
  previousIcon (state i) <> None ->
  previousIcon (state (fst (updates eq_dec i ps s))) <> None.
Proof.
  induction ps as [|p ps IH]; intros i s H; [exact H|].
  rewrite updates_cons. apply IH. rewrite update_state.
  unfold getDerivedStateFromProps.
  destruct (eq_dec (currentIcon (state i)) (source p));
    cbn [merge previousIcon]; [exact H|discriminate].
Qed.

Lemma updates_previous_recorded ps : forall i s p,
  In p ps -> source p <> currentIcon (state i) ->
  previousIcon (state (fst (updates eq_dec i ps s))) <> None.
Proof.
  induction ps as [|p' ps IH]; intros i s p Hin Hp; [destruct Hin|].
  rewrite updates_cons.
  destruct (eq_dec (source p') (currentIcon (state i))) as [E|E].
  - destruct Hin as [->|Hin]; [contradiction|].
    apply (IH _ _ p Hin). rewrite update_state.
    rewrite derived_same_icon by exact E. exact Hp.
  - apply updates_previous_kept. rewrite update_state.
    rewrite derived_new_icon by exact E. discriminate.
Qed.

(** After a sequence of props no previous icon is recorded exactly when
    every supplied icon equals the one the component was mounted with:
    the first change records one, and nothing ever clears it. *)
Theorem previous_icon_absent_iff_no_change (p0 : Props IconSource) ps :
  previousIcon (state (fst (run eq_dec p0 ps))) = None <->
  (forall p, In p ps -> source p = source p0).
Proof.
  unfold run. rewrite mount_instance. split.
  - intros H p Hin.
    destruct (eq_dec (source p) (source p0)) as [E|E]; [exact E|].
    exfalso. revert H.
    apply updates_previous_recorded with (p := p); [exact Hin|exact E].
  - intro H. rewrite updates_same_icon by exact H. reflexivity.
Qed.

(** The store of a component is its one [fade] cell; after an update it
    holds the target of the last animation. *)
Lemma updates_fade_cell ps : forall i x,
  fade (state i) = 0%nat ->
  fade (state (fst (updates eq_dec i ps [x]))) = 0%nat /\
  snd (updates eq_dec i ps [x])
  = [match ps with
     | [] => x
     | _ => if isOpen (last ps (props i)) then 1 else 0
     end].
Proof.
  induction ps as [|p ps IH]; intros i x Hf; [split; [exact Hf|reflexivity]|].
  rewrite updates_cons.
  assert (Hf' : fade (state (fst (update eq_dec i p [x]))) = 0%nat).
  { rewrite update_state. unfold getDerivedStateFromProps.
    destruct (eq_dec (currentIcon (state i)) (source p)); exact Hf. }
  assert (Hs : snd (update eq_dec i p [x]) = [if isOpen p then 1 else 0]).
  { unfold update. cbn [snd componentDidUpdate flat_map app start schedule
      finish fold_left step_value step_toValue].
    fold (fade (state (fst (update eq_dec i p [x])))).
    change (fade (merge (state i)
                    (getDerivedStateFromProps eq_dec p (state i))))
      with (fade (state (fst (update eq_dec i p [x])))).
    rewrite Hf'. reflexivity. }
  rewrite Hs.
  destruct (IH (fst (update eq_dec i p [x])) (if isOpen p then 1 else 0) Hf')
    as [H1 H2].
  split; [exact H1|]. rewrite H2. destruct ps as [|q ps]; [reflexivity|].
  rewrite (last_cons_default p (props i)). reflexivity.
Qed.

(** Once the animations have run, the angle that the render shows is 45
    degrees when a (truthy) previous icon is recorded and the last props
    have [isOpen] set, and 0 degrees otherwise: the angle follows
    [isOpen], not the moment of the icon change. *)
Theorem settled_angle (p0 : Props IconSource) ps :
  exists a,
    angle (snd (run eq_dec p0 ps))
      (rotate (view truthy (fst (run eq_dec p0 ps)))) = Some a /\
    a == (if truthy_opt truthy
               (previousIcon (state (fst (run eq_dec p0 ps))))
             && isOpen (last ps p0)
          then 45 else 0).
Proof.
  unfold run. rewrite mount_instance.
  set (i0 := {| props := p0; state := _ |}).
  destruct (updates_fade_cell ps i0 0 eq_refl) as [Hf Hs].
  unfold view, render. cbn [rotate].
  destruct (truthy_opt truthy
              (previousIcon (state (fst (updates eq_dec i0 ps [0])))))
    eqn:Et; cbn [andb angle].
  - unfold Value_interpolate. cbn [node_getValue].
    rewrite Hf, Hs. cbn [getValue nth_error option_map].
    eexists. split; [reflexivity|].
    rewrite createInterpolation_degrees.
    destruct ps as [|q ps].
    + exfalso. cbn in Et. discriminate Et.
    + cbn [props i0]. destruct (isOpen (last (q :: ps) p0));
        vm_compute; reflexivity.
  - exists 0. split; reflexivity.
Qed.

End WithIcons.

End CrossFadeIconRuns.

(** ** [shadow]: further properties of both branches *)

Module ShadowShape.

Import Animated Shadow Reference AnimatedFacts ShadowFacts.

(** Split on the segment of the breakpoints that holds [x]. *)
Ltac segment x :=
  let E := fresh "E" in
  destruct (Qle_bool x 1) eqn:E;
  [apply Qle_bool_iff in E
  |apply Qle_bool_false in E;
   let E := fresh "E" in
   destruct (Qle_bool x 2) eqn:E;
   [apply Qle_bool_iff in E
   |apply Qle_bool_false in E;
    let E := fresh "E" in
    destruct (Qle_bool x 3) eqn:E;
    [apply Qle_bool_iff in E
    |apply Qle_bool_false in E;
     let E := fresh "E" in
     destruct (Qle_bool x 8) eqn:E;
     [apply Qle_bool_iff in E|apply Qle_bool_false in E]]]].

Lemma piecewise_heights_monotone (x y : Q) :
  x <= y -> piecewise height_outputs x <= piecewise height_outputs y.
Proof.
  intro H. unfold piecewise, lerp, height_outputs, Qdiv. cbn [nth].
  segment x; segment y; fold_inverses; lra.
Qed.

Lemma piecewise_radii_monotone (x y : Q) :
  x <= y -> piecewise radius_outputs x <= piecewise radius_outputs y.
Proof.
  intro H. unfold piecewise, lerp, radius_outputs, Qdiv. cbn [nth].
  segment x; segment y; fold_inverses; lra.
Qed.

Section WithColors.

Variable Color : Type.
Variable black : Color.

Local Abbreviation shadow := (Shadow.shadow Color black).

(** What the height and the radius of a dynamic style show in a store
    where the elevation shows [x]. *)
Lemma shadow_dynamic_shows (v : Value) (s0 s : Store) (x : Q) :
  getValue s v = Some x ->
  exists st,
    fst (shadow (Some (AnimatedValue v)) s0) = Dynamic st /\
    node_getValue s (height (shadowOffset st))
      = Some (createInterpolation (ranges breakpoints height_outputs) x) /\
    node_getValue s (shadowRadius st)
      = Some (createInterpolation (ranges breakpoints radius_outputs) x).
Proof.
  intro Hx. rewrite shadow_dynamic. eexists. split; [reflexivity|].
  cbn [fst shadowOffset shadowRadius height node_getValue].
  rewrite Hx. split; reflexivity.
Qed.

(** As the elevation signal grows, the offset-height and the radius of a
    dynamic style never shrink, inside and outside of the table. *)
Theorem shadow_dynamic_monotone (v : Value) (s0 s1 s2 : Store) (x y : Q) :
  getValue s1 v = Some x ->
  getValue s2 v = Some y ->
  x <= y ->
  exists st h1 h2 r1 r2,
    fst (shadow (Some (AnimatedValue v)) s0) = Dynamic st /\
    node_getValue s1 (height (shadowOffset st)) = Some h1 /\
    node_getValue s2 (height (shadowOffset st)) = Some h2 /\
    node_getValue s1 (shadowRadius st) = Some r1 /\
    node_getValue s2 (shadowRadius st) = Some r2 /\
    h1 <= h2 /\ r1 <= r2.
Proof.
  intros Hx Hy Hxy.
  destruct (shadow_dynamic_shows v s0 s1 x Hx) as (st & Hst & Hh1 & Hr1).
  destruct (shadow_dynamic_shows v s0 s2 y Hy) as (st' & Hst' & Hh2 & Hr2).
  rewrite Hst in Hst'. injection Hst' as <-.
  exists st. do 4 eexists.
  split; [exact Hst|]. split; [exact Hh1|]. split; [exact Hh2|].
  split; [exact Hr1|]. split; [exact Hr2|].
  rewrite !createInterpolation_breakpoints.
  split; [apply piecewise_heights_monotone|apply piecewise_radii_monotone];
    exact Hxy.
Qed.

(** While the elevation signal stays inside the table, from 0 to 24, the
    offset-height stays between 0 and 7 and the radius between 0 and
    24. *)
Theorem shadow_dynamic_in_table (v : Value) (s0 s : Store) (x : Q) :
  getValue s v = Some x ->
  0 <= x <= 24 ->
  exists st h r,
    fst (shadow (Some (AnimatedValue v)) s0) = Dynamic st /\
    node_getValue s (height (shadowOffset st)) = Some h /\
    node_getValue s (shadowRadius st) = Some r /\
    0 <= h <= 7 /\ 0 <= r <= 24.
Proof.
  intros Hx [H0 H24].
  destruct (shadow_dynamic_shows v s0 s x Hx) as (st & Hst & Hh & Hr).
  exists st. do 2 eexists.
  split; [exact Hst|]. split; [exact Hh|]. split; [exact Hr|].
  rewrite !createInterpolation_breakpoints.
  unfold piecewise, lerp, height_outputs, radius_outputs, Qdiv. cbn [nth].
  segment x; fold_inverses; lra.
Qed.

(** At every breakpoint of the table the offset-height and the radius
    show exactly the table's outputs: the segments meet there. *)
Theorem shadow_dynamic_at_breakpoints (v : Value) (s0 s : Store) (k : nat) :
  (k < 6)%nat ->
  getValue s v = Some (nth k breakpoints 0) ->
  exists st h r,
    fst (shadow (Some (AnimatedValue v)) s0) = Dynamic st /\
    node_getValue s (height (shadowOffset st)) = Some h /\
    node_getValue s (shadowRadius st) = Some r /\
    h == nth k height_outputs 0 /\ r == nth k radius_outputs 0.
Proof.
  intros Hk Hx.
  destruct (shadow_dynamic_shows v s0 s _ Hx) as (st & Hst & Hh & Hr).
  exists st. do 2 eexists.
  split; [exact Hst|]. split; [exact Hh|]. split; [exact Hr|].
  do 6 (destruct k as [|k]; [split; vm_compute; reflexivity|]). lia.
Qed.

(** The radius of a static style never exceeds the elevation, equals it
    except at the elevations 1 and 2, and is positive exactly when the
    elevation is: a negative elevation is not rejected, it gives a
    negative radius. *)
Theorem shadow_static_radius (e : Q) (s : Store) :
  ~ e == 0 ->
  exists st,
    fst (shadow (Some (Number e)) s) = Static st /\
    shadowRadius st <= e /\
    (0 < shadowRadius st <-> 0 < e) /\
    (~ e == 1 -> ~ e == 2 -> shadowRadius st = e).
Proof.
  intro H. rewrite (shadow_static_nonzero Color black e s H).
  eexists. split; [reflexivity|]. cbn [shadowRadius].
  unfold height_radius.
  destruct (Qeq_bool e 1) eqn:E1.
  - apply Qeq_bool_iff in E1. cbn [snd].
    split; [lra|]. split; [split; lra|]. intros C. contradiction.
  - apply Qeq_bool_neq in E1. destruct (Qeq_bool e 2) eqn:E2.
    + apply Qeq_bool_iff in E2. cbn [snd].
      split; [lra|]. split; [split; lra|]. intros _ C. contradiction.
    + cbn [snd]. split; [lra|]. split; [reflexivity|]. reflexivity.
Qed.

(** [shadow] returns the empty style exactly for a missing argument and
    for a constant elevation equal to 0; a dynamic elevation gets a full
    style also while it shows 0. *)
Theorem shadow_empty_iff (arg : option Elevation) (s : Store) :
  fst (shadow arg s) = Empty <->
  arg = None \/ exists e, arg = Some (Number e) /\ e == 0.
Proof.
  split.
  - destruct arg as [[e|v]|]; intro H.
    + right. exists e. split; [reflexivity|].
      destruct (Qeq_dec e 0) as [E|E]; [exact E|].
      rewrite (shadow_static_nonzero Color black e s E) in H. discriminate H.
    + rewrite shadow_dynamic in H. discriminate H.
    + left. reflexivity.
  - intros [->|(e & -> & E)]; [reflexivity|].
    rewrite (shadow_static_zero Color black e s E). reflexivity.
Qed.

End WithColors.

Lemma shadow_dynamic_monotone_witness :
  getValue [2] 0%nat = Some 2 /\ getValue [9] 0%nat = Some 9 /\ 2 <= 9 /\
  exists st h1 h2 r1 r2,
    fst (Shadow.shadow string "black"%string (Some (AnimatedValue 0%nat)) [])
      = Dynamic st /\
    node_getValue [2] (height (shadowOffset st)) = Some h1 /\
    node_getValue [9] (height (shadowOffset st)) = Some h2 /\
    node_getValue [2] (shadowRadius st) = Some r1 /\
    node_getValue [9] (shadowRadius st) = Some r2 /\
    h1 <= h2 /\ r1 <= r2.
Proof.
  split; [reflexivity|]. split; [reflexivity|]. split; [lra|].
  apply (shadow_dynamic_monotone string "black"%string 0%nat [] [2] [9] 2 9);
    [reflexivity|reflexivity|lra].
Defined.

Lemma shadow_dynamic_in_table_witness :
  getValue [5] 0%nat = Some 5 /\ 0 <= 5 <= 24 /\
  exists st h r,
    fst (Shadow.shadow string "black"%string (Some (AnimatedValue 0%nat)) [])
      = Dynamic st /\
    node_getValue [5] (height (shadowOffset st)) = Some h /\
    node_getValue [5] (shadowRadius st) = Some r /\
    0 <= h <= 7 /\ 0 <= r <= 24.
Proof.
  split; [reflexivity|]. split; [lra|].
  apply (shadow_dynamic_in_table string "black"%string 0%nat [] [5] 5);
    [reflexivity|lra].
Defined.

Lemma shadow_dynamic_at_breakpoints_witness :
  (4 < 6)%nat /\ getValue [8] 0%nat = Some (nth 4 breakpoints 0) /\
  exists st h r,
    fst (Shadow.shadow string "black"%string (Some (AnimatedValue 0%nat)) [])
      = Dynamic st /\
    node_getValue [8] (height (shadowOffset st)) = Some h /\
    node_getValue [8] (shadowRadius st) = Some r /\
    h == nth 4 height_outputs 0 /\ r == nth 4 radius_outputs 0.
Proof.
  split; [lia|]. split; [reflexivity|].
  apply (shadow_dynamic_at_breakpoints string "black"%string 0%nat [] [8] 4);
    [lia|reflexivity].
Defined.

Lemma shadow_static_radius_witness :
  ~ -2 == 0 /\
  exists st,
    fst (Shadow.shadow string "black"%string (Some (Number (-2))) [])
      = Static st /\
    shadowRadius st <= -2 /\
    (0 < shadowRadius st <-> 0 < -2) /\
    (~ -2 == 1 -> ~ -2 == 2 -> shadowRadius st = -2).
Proof.
  split; [lra|].
  apply (shadow_static_radius string "black"%string (-2) []). lra.
Defined.

End ShadowShape.

(** ** The store under [setValue] and [finish] *)

Module StoreFacts.

Import Animated.

Lemma length_setValue (s : Store) : forall r v,
  length (setValue s r v) = length s.
Proof.
  induction s as [|x s IH]; intros [|r] v; cbn; try reflexivity.
  rewrite IH. reflexivity.
Qed.

Lemma getValue_setValue_same (s : Store) : forall r v,
  (r < length s)%nat -> getValue (setValue s r v) r = Some v.
Proof.
  unfold getValue.
  induction s as [|x s IH]; intros [|r] v H; cbn in *; try lia; try reflexivity.
  apply IH. lia.
Qed.

Lemma getValue_setValue_other (s : Store) : forall r r' v,
  r <> r' -> getValue (setValue s r v) r' = getValue s r'.
Proof.
  unfold getValue.
  induction s as [|x s IH]; intros [|r] [|r'] v H; cbn; try reflexivity;
    try congruence.
  apply IH. congruence.
Qed.

Lemma finish_cons (st : Step) (steps : list Step) (s : Store) :
  finish (st :: steps) s
  = finish steps (setValue s (step_value st) (step_toValue st)).
Proof. reflexivity. Qed.

Lemma length_finish (steps : list Step) : forall s,
  length (finish steps s) = length s.
Proof.
  induction steps as [|st steps IH]; intro s; [reflexivity|].
  rewrite finish_cons, IH. apply length_setValue.
Qed.

(** A cell that no transition targets keeps what it shows. *)
Lemma finish_untargeted (steps : list Step) : forall s r,
  ~ In r (map step_value steps) ->
  getValue (finish steps s) r = getValue s r.
Proof.
  induction steps as [|st steps IH]; intros s r H; [reflexivity|].
  rewrite finish_cons, IH.
  - apply getValue_setValue_other. intro E. apply H. left. exact E.
  - intro C. apply H. right. exact C.
Qed.

(** A cell of the store whose transitions all go to [v] shows [v] in the
    end. *)
Lemma finish_targeted (steps : list Step) : forall s r v,
  (r < length s)%nat ->
  In r (map step_value steps) ->
  (forall st, In st steps -> step_value st = r -> step_toValue st = v) ->
  getValue (finish steps s) r = Some v.
Proof.
  induction steps as [|st steps IH]; intros s r v Hr Hin Hall; [destruct Hin|].
  rewrite finish_cons.
  destruct (in_dec Nat.eq_dec r (map step_value steps)) as [Hlater|Hlast].
  - apply IH; [rewrite length_setValue; exact Hr|exact Hlater|].
    intros st' Hst'. apply Hall. right. exact Hst'.
  - rewrite finish_untargeted by exact Hlast.
    destruct Hin as [E|C]; [|contradiction].
    rewrite (Hall st (or_introl eq_refl) E), E.
    apply getValue_setValue_same. exact Hr.
Qed.

End StoreFacts.

(** ** [FAB.Group]: the derived state in closed form, and runs *)

Module FABGroupRuns.

Import Animated FABGroup FABGroupLife Reference FABGroupFacts StoreFacts.

Lemma skipn_nth_error {A} (l : list A) : forall i v,
  nth_error l i = Some v -> skipn i l = v :: skipn (S i) l.
Proof.
  induction l as [|a l IH]; intros [|i] v H; cbn in *; try discriminate.
  - congruence.
  - apply IH. exact H.
Qed.

(** The derived list is what is left of the old list from [i] on, cut to
    the number of actions, followed by consecutive fresh cells. *)
Lemma derive_animations_closed_form acts : forall i prev open s,
  derive_animations acts i prev open s =
    (firstn (length acts) (skipn i prev)
       ++ seq (length s) (length acts - (length prev - i)),
     s ++ repeat (if open then 1 else 0) (length acts - (length prev - i))).
Proof.
  induction acts as [|a acts IH]; intros i prev open s.
  - cbn. rewrite app_nil_r. reflexivity.
  - rewrite derive_animations_cons.
    destruct (nth_error prev i) as [v|] eqn:Ei.
    + rewrite (animation_at_old _ _ _ _ _ Ei), IH.
      rewrite (skipn_nth_error _ _ _ Ei).
      assert (Hi : (i < length prev)%nat) by (apply nth_error_Some; congruence).
      replace (length (a :: acts) - (length prev - i))%nat
        with (length acts - (length prev - S i))%nat by (cbn [length]; lia).
      reflexivity.
    + rewrite (animation_at_new _ _ _ _ Ei), IH.
      apply nth_error_None in Ei.
      rewrite !skipn_all2 by lia. rewrite !firstn_nil.
      replace (length prev - S i)%nat with 0%nat by lia.
      replace (length prev - i)%nat with 0%nat by lia.
      rewrite !Nat.sub_0_r, length_app, <- app_assoc. cbn [length app repeat seq].
      rewrite Nat.add_1_r. reflexivity.
Qed.

(** Deriving the state when the number of actions does not grow takes
    the first entries of the old list and allocates nothing; when it
    grows, the old list is kept whole and followed by one fresh cell per
    new action, each holding 1 if the group is open and 0 if not. *)
Theorem derived_state_closed_form (nextProps : Props) (prevState : State)
    (s : Store) :
  let n := length (actions nextProps) in
  let m := length (animations prevState) in
  ((n <= m)%nat ->
   getDerivedStateFromProps nextProps prevState s =
     ({| backdrop := backdrop prevState;
         animations := firstn n (animations prevState) |}, s)) /\
  ((m <= n)%nat ->
   getDerivedStateFromProps nextProps prevState s =
     ({| backdrop := backdrop prevState;
         animations := animations prevState ++ seq (length s) (n - m) |},
      s ++ repeat (if open nextProps then 1 else 0) (n - m))).
Proof.
  cbv zeta. unfold getDerivedStateFromProps, bind, ret.
  rewrite derive_animations_closed_form. cbn [skipn]. rewrite Nat.sub_0_r.
  split; intro H.
  - replace (length (actions nextProps) - length (animations prevState))%nat
      with 0%nat by lia.
    cbn [seq repeat]. rewrite !app_nil_r. reflexivity.
  - rewrite firstn_all2 by exact H. reflexivity.
Qed.

Lemma derived_state (nextProps : Props) (prevState : State) (s : Store) :
  getDerivedStateFromProps nextProps prevState s =
    ({| backdrop := backdrop prevState;
        animations :=
          firstn (length (actions nextProps)) (animations prevState)
            ++ seq (length s)
                 (length (actions nextProps) - length (animations prevState)) |},
     s ++ repeat (if open nextProps then 1 else 0)
            (length (actions nextProps) - length (animations prevState))).
Proof.
  unfold getDerivedStateFromProps, bind, ret.
  rewrite derive_animations_closed_form. cbn [skipn]. rewrite Nat.sub_0_r.
  reflexivity.
Qed.

Lemma In_firstn {A} (n : nat) (l : list A) (a : A) :
  In a (firstn n l) -> In a l.
Proof.
  intro H. rewrite <- (firstn_skipn n l). apply in_or_app. left. exact H.
Qed.

Lemma NoDup_firstn {A} (n : nat) (l : list A) : NoDup l -> NoDup (firstn n l).
Proof.
  intro H. rewrite <- (firstn_skipn n l) in H.
  exact (NoDup_app_remove_r _ _ H).
Qed.

(** Deriving the state keeps it well formed. *)
Lemma derived_state_well_formed (nextProps : Props) (prevState : State)
    (s : Store) :
  well_formed prevState s ->
  well_formed (fst (getDerivedStateFromProps nextProps prevState s))
    (snd (getDerivedStateFromProps nextProps prevState s)).
Proof.
  intros (Hb & Hall & Hnd). rewrite derived_state. cbn [fst snd].
  set (n := length (actions nextProps)).
  set (k := (n - length (animations prevState))%nat).
  apply NoDup_cons_iff in Hnd. destruct Hnd as [Hbn Hnd].
  rewrite Forall_forall in Hall.
  unfold well_formed. cbn [backdrop animations].
  rewrite length_app, repeat_length.
  split; [lia|]. split.
  - apply Forall_forall. intros r Hr. apply in_app_or in Hr.
    destruct Hr as [Hr|Hr].
    + apply In_firstn, Hall in Hr. lia.
    + apply in_seq in Hr. lia.
  - apply NoDup_cons.
    + intro C. apply in_app_or in C. destruct C as [C|C].
      * apply Hbn. exact (In_firstn _ _ _ C).
      * apply in_seq in C. lia.
    + apply NoDup_app; [apply NoDup_firstn, Hnd|apply seq_NoDup|].
      intros r Hr C. apply In_firstn, Hall in Hr. apply in_seq in C. lia.
Qed.

Lemma well_formed_length (st : State) (s s' : Store) :
  length s' = length s -> well_formed st s -> well_formed st s'.
Proof. unfold well_formed. intros ->. exact (fun H => H). Qed.

(** Old progress values keep what they show, fresh ones show the open
    flag. *)
Lemma derived_state_shows (nextProps : Props) (prevState : State)
    (s : Store) :
  well_formed prevState s ->
  all_show prevState s (if open nextProps then 1 else 0) ->
  all_show (fst (getDerivedStateFromProps nextProps prevState s))
    (snd (getDerivedStateFromProps nextProps prevState s))
    (if open nextProps then 1 else 0).
Proof.
  intros (_ & Hall & _) Hshow. rewrite derived_state. cbn [fst snd].
  unfold all_show in *. cbn [animations].
  rewrite Forall_forall in *. intros r Hr. apply in_app_or in Hr.
  destruct Hr as [Hr|Hr].
  - apply In_firstn in Hr. unfold getValue.
    rewrite nth_error_app1 by (apply Hall, Hr). apply Hshow, Hr.
  - apply in_seq in Hr. unfold getValue.
    rewrite nth_error_app2 by lia. apply nth_error_repeat. lia.
Qed.

Lemma staggered_steps (t0 time to d : Q) (l : list Value) : forall i st,
  In st (map_index (staggered t0 time to d) i l) ->
  step_toValue st = to /\ step_duration st = d /\ In (step_value st) l.
Proof.
  induction l as [|r l IH]; intros i st H; [destruct H|].
  destruct H as [<-|H].
  - repeat split. left. reflexivity.
  - destruct (IH _ _ H) as (H1 & H2 & H3). repeat split; try assumption.
    right. exact H3.
Qed.

(** When the open flag changes, the started animations, run to their
    end, leave every progress value at the new flag and the backdrop at
    0.32 or 0; no other cell is written. *)
Lemma transition_finish (p pprev : Props) (st : State) (s : Store) :
  well_formed st s ->
  open p <> open pprev ->
  all_show st (finish (started_steps p pprev st) s)
    (if open p then 1 else 0) /\
  getValue (finish (started_steps p pprev st) s) (backdrop st)
    = Some (if open p then 0.32 else 0) /\
  (forall r,
      r <> backdrop st -> ~ In r (animations st) ->
      getValue (finish (started_steps p pprev st) s) r = getValue s r).
Proof.
  intros (Hb & Hall & Hnd) Hopen.
  rewrite (started_steps_on_transition _ _ _ Hopen).
  set (l := if open p then rev (animations st) else animations st).
  assert (Hl : forall r, In r l <-> In r (animations st)).
  { intro r. subst l. destruct (open p); [symmetry; apply in_rev|tauto]. }
  apply NoDup_cons_iff in Hnd. destruct Hnd as [Hbn _].
  rewrite Forall_forall in Hall.
  split; [|split].
  - apply Forall_forall. intros r Hr. apply finish_targeted.
    + apply Hall, Hr.
    + right. rewrite map_step_value_staggered. apply Hl, Hr.
    + intros st' [<-|Hst'] E.
      * cbn in E. congruence.
      * apply staggered_steps in Hst'. apply Hst'.
  - apply finish_targeted.
    + exact Hb.
    + left. reflexivity.
    + intros st' [<-|Hst'] E; [reflexivity|].
      apply staggered_steps in Hst'. destruct Hst' as (_ & _ & Hin).
      rewrite E in Hin. apply Hl in Hin. contradiction.
  - intros r Hrb Hra. apply finish_untargeted.
    cbn [map step_value]. rewrite map_step_value_staggered.
    intros [C|C]; [congruence|]. apply Hl in C. contradiction.
Qed.

Lemma update_unfold (i : Instance) (p : Props) (s : Store) :
  update i p s =
    ({| props := p; state := fst (getDerivedStateFromProps p (state i) s) |},
     finish
       (started_steps p (props i)
          (fst (getDerivedStateFromProps p (state i) s)))
       (snd (getDerivedStateFromProps p (state i) s))).
Proof.
  unfold update. destruct (getDerivedStateFromProps p (state i) s).
  reflexivity.
Qed.

Lemma derived_state_length (p : Props) (st : State) (s : Store) :
  length (animations (fst (getDerivedStateFromProps p st s)))
  = length (actions p).
Proof.
  rewrite derived_state. cbn [fst animations].
  rewrite length_app, length_firstn, length_seq. lia.
Qed.

Lemma derived_state_backdrop (p : Props) (st : State) (s : Store) :
  backdrop (fst (getDerivedStateFromProps p st s)) = backdrop st.
Proof. rewrite derived_state. reflexivity. Qed.

Lemma derived_state_old_cells (p : Props) (st : State) (s : Store) r :
  (r < length s)%nat ->
  getValue (snd (getDerivedStateFromProps p st s)) r = getValue s r.
Proof.
  intro H. rewrite derived_state. cbn [snd]. unfold getValue.
  apply nth_error_app1. exact H.
Qed.

Lemma mount_props (p : Props) (s : Store) : props (fst (mount p s)) = p.
Proof.
  unfold mount, initialState, new_Value, bind, ret.
  destruct (getDerivedStateFromProps p
              {| backdrop := length s; animations := [] |} (s ++ [0])).
  reflexivity.
Qed.

Lemma mount_settled (p : Props) : settled (fst (mount p [])) (snd (mount p [])).
Proof.
  unfold mount, initialState, new_Value, bind, ret. cbn [length app].
  set (st0 := {| backdrop := 0%nat; animations := [] |}).
  assert (Hwf : well_formed st0 [0]).
  { unfold well_formed. cbn. repeat split; [lia|constructor|].
    constructor; [intros []|constructor]. }
  pose proof (derived_state_well_formed p st0 [0] Hwf) as Hwf'.
  pose proof (derived_state_shows p st0 [0] Hwf (Forall_nil _)) as Hshow.
  pose proof (derived_state_length p st0 [0]) as Hlen.
  pose proof (derived_state_backdrop p st0 [0]) as Hbd.
  pose proof (derived_state_old_cells p st0 [0] 0%nat) as Hcell.
  destruct (getDerivedStateFromProps p st0 [0]) as [st s] eqn:E.
  unfold settled. cbn [fst snd props state] in *.
  split; [exact Hwf'|]. split; [exact Hlen|]. split; [exact Hshow|].
  exists 0. rewrite Hbd.
  split; [apply Hcell; cbn; lia|]. split; [left; reflexivity|reflexivity].
Qed.

Lemma update_settled (i : Instance) (p : Props) (s : Store) :
  settled i s -> settled (fst (update i p s)) (snd (update i p s)).
Proof.
  intros (Hwf & Hlen & Hshow & b & Hb & Hb01 & Hbclosed).
  rewrite update_unfold. cbn [fst snd].
  pose proof (derived_state_well_formed p (state i) s Hwf) as Hwf'.
  pose proof (derived_state_length p (state i) s) as Hlen'.
  pose proof (derived_state_backdrop p (state i) s) as Hbd.
  pose proof (derived_state_old_cells p (state i) s (backdrop (state i))
                (proj1 Hwf)) as Hcell.
  destruct (Bool.bool_dec (open p) (open (props i))) as [Esame|Ediff].
  - pose proof (derived_state_shows p (state i) s Hwf) as Hshow'.
    rewrite Esame in Hshow'. specialize (Hshow' Hshow).
    rewrite (started_steps_unchanged _ _ _ Esame). cbn [finish fold_left].
    unfold settled. cbn [props state]. rewrite Esame.
    split; [exact Hwf'|]. split; [exact Hlen'|]. split; [exact Hshow'|].
    exists b. rewrite Hbd, Hcell. split; [exact Hb|]. split; assumption.
  - destruct (transition_finish p (props i) _ _ Hwf' Ediff)
      as (Hitems & Hback & _).
    unfold settled. cbn [props state].
    split; [|split; [exact Hlen'|split; [exact Hitems|]]].
    + apply (well_formed_length _ _ _ (length_finish _ _)). exact Hwf'.
    + exists (if open p then 0.32 else 0). split; [exact Hback|].
      destruct (open p); split; try (right; reflexivity);
        try (left; reflexivity); try reflexivity; discriminate.
Qed.

Lemma updates_settled ps : forall i s,
  settled i s ->
  settled (fst (updates i ps s)) (snd (updates i ps s)) /\
  props (fst (updates i ps s)) = last ps (props i).
Proof.
  induction ps as [|p ps IH]; intros i s H; [split; [exact H|reflexivity]|].
  cbn [updates]. unfold bind.
  pose proof (update_settled i p s H) as H'.
  assert (Hp : props (fst (update i p s)) = p)
    by (rewrite update_unfold; reflexivity).
  destruct (update i p s) as [i' s']. cbn [fst snd] in *.
  destruct (IH i' s' H') as [H1 H2]. split; [exact H1|].
  rewrite H2, Hp. symmetry. apply CrossFadeIconFacts.last_cons_default.
Qed.

(** After mounting and after every sequence of updates, each run to its
    end, the group is settled for the last props: the state is well
    formed (backdrop and progress values are distinct cells of the
    store), there is one progress value per action, every progress value
    shows 1 if the group is open and 0 if it is closed, and the backdrop
    shows 0 or 0.32, and 0 whenever the group is closed. *)
Theorem run_settled (p0 : Props) (ps : list Props) :
  settled (fst (run p0 ps)) (snd (run p0 ps)) /\
  props (fst (run p0 ps)) = last ps p0.
Proof.
  unfold run, bind.
  pose proof (mount_settled p0) as H.
  pose proof (mount_props p0 []) as Hp.
  destruct (mount p0 []) as [i s]. cbn [fst snd] in *.
  destruct (updates_settled ps i s H) as [H1 H2].
  split; [exact H1|]. rewrite H2, Hp. reflexivity.
Qed.

(** A group that is mounted open shows its items at once (every
    progress value holds 1), but its backdrop stays at 0: the backdrop
    is only moved by the update hook, which does not run on mount. *)
Theorem mounted_open_backdrop (p0 : Props) :
  open p0 = true ->
  all_show (state (fst (run p0 []))) (snd (run p0 [])) 1 /\
  getValue (snd (run p0 [])) (backdrop (state (fst (run p0 [])))) = Some 0.
Proof.
  intro Hopen. unfold run, bind. cbn [updates]. unfold ret.
  pose proof (mount_settled p0) as H.
  pose proof (mount_props p0 []) as Hp.
  assert (Hb : getValue (snd (mount p0 []))
                 (backdrop (state (fst (mount p0 [])))) = Some 0).
  { unfold mount, initialState, new_Value, bind, ret. cbn [length app].
    set (st0 := {| backdrop := 0%nat; animations := [] |}).
    pose proof (derived_state_backdrop p0 st0 [0]) as Hbd.
    pose proof (derived_state_old_cells p0 st0 [0] 0%nat) as Hcell.
    destruct (getDerivedStateFromProps p0 st0 [0]) as [st s].
    cbn [fst snd state] in *. rewrite Hbd. apply Hcell. cbn. lia. }
  destruct (mount p0 []) as [i s]. cbn [fst snd] in *.
  destruct H as (_ & _ & Hshow & _). rewrite Hp, Hopen in Hshow.
  split; [exact Hshow|exact Hb].
Qed.

(** An update that flips the open flag, started from any well-formed
    state (whatever its values show, for instance in the middle of an
    earlier animation) and run to its end, leaves every progress value
    at the new flag and the backdrop at 0.32 (open) or 0 (closed), and
    writes no cell of the old store other than those. *)
Theorem update_transition_settles (i : Instance) (p : Props) (s : Store) :
  well_formed (state i) s ->
  open p <> open (props i) ->
  all_show (state (fst (update i p s))) (snd (update i p s))
    (if open p then 1 else 0) /\
  getValue (snd (update i p s)) (backdrop (state (fst (update i p s))))
    = Some (if open p then 0.32 else 0) /\
  (forall r,
      (r < length s)%nat ->
      r <> backdrop (state i) ->
      ~ In r (animations (state i)) ->
      getValue (snd (update i p s)) r = getValue s r).
Proof.
  intros Hwf Hopen. rewrite update_unfold. cbn [fst snd state].
  pose proof (derived_state_well_formed p (state i) s Hwf) as Hwf'.
  destruct (transition_finish p (props i) _ _ Hwf' Hopen)
    as (Hitems & Hback & Hother).
  split; [exact Hitems|]. split; [exact Hback|].
  intros r Hr Hrb Hra.
  rewrite Hother.
  - apply derived_state_old_cells. exact Hr.
  - rewrite derived_state_backdrop. exact Hrb.
  - rewrite derived_state. cbn [fst animations]. intro C.
    apply in_app_or in C. destruct C as [C|C].
    + apply Hra. exact (In_firstn _ _ _ C).
    + apply in_seq in C. lia.
Qed.

End FABGroupRuns.

(** ** [FAB.Group]: how long a transition runs *)

Module FABGroupSpan.

Import Animated FABGroup Reference FABGroupFacts Inputs.

Lemma inject_nat_nonneg (k : nat) : 0 <= inject_Z (Z.of_nat k).
Proof. change 0 with (inject_Z 0). rewrite <- Zle_Qle. lia. Qed.

Lemma inject_nat_le (j k : nat) :
  (j <= k)%nat -> inject_Z (Z.of_nat j) <= inject_Z (Z.of_nat k).
Proof. intro H. rewrite <- Zle_Qle. lia. Qed.

(** A stagger of equal timings ends when its last member ends. *)
Lemma span_staggered_timings (t d to : Q) :
  0 <= t -> 0 <= d ->
  forall rs i,
    fold_right (fun x acc => Qmax (span x) acc) 0
      (map_index
         (fun animation i =>
            sequence [delay (t * inject_Z (Z.of_nat i)); animation])
         i (map (fun r => timing r to d) rs))
    == match length rs with
       | O => 0
       | S k => t * inject_Z (Z.of_nat (i + k)) + d
       end.
Proof.
  intros Ht Hd. induction rs as [|r rs IH]; intro i; [reflexivity|].
  cbn [map map_index fold_right length]. rewrite IH.
  cbn [span fold_right].
  pose proof (inject_nat_nonneg i) as Hi.
  destruct rs as [|r' rs]; cbn [length].
  - rewrite Q.max_l by nra. rewrite Nat.add_0_r. ring.
  - pose proof (inject_nat_le i (S i + length rs)
                  ltac:(lia)) as Hle.
    rewrite Q.max_r by nra.
    replace (i + S (length rs))%nat with (S i + length rs)%nat by lia.
    reflexivity.
Qed.

(** With a scale that is not negative, the animation that a change of
    the open flag starts runs as long as the longer of its two parts:
    the backdrop (250 x scale when opening, 200 x scale when closing)
    and the stagger, whose last of [n] members starts at
    50 x scale x (n - 1) and takes 150 x scale. *)
Theorem transition_span (props prevProps : Props) (st : State) :
  0 <= theme_animation_scale props ->
  open props <> open prevProps ->
  exists a,
    componentDidUpdate props prevProps st = [a] /\
    span a ==
      Qmax
        ((if open props then 250 else 200) * theme_animation_scale props)
        match length (animations st) with
        | O => 0
        | S k =>
            50 * theme_animation_scale props * inject_Z (Z.of_nat k)
            + 150 * theme_animation_scale props
        end.
Proof.
  intros Hs Hopen. unfold componentDidUpdate.
  destruct (Bool.eqb (open props) (open prevProps)) eqn:E;
    [apply Bool.eqb_prop in E; contradiction|].
  set (sc := theme_animation_scale props) in *.
  assert (Hstag : forall to l,
    span (stagger (50 * sc) (map (fun r => timing r to (150 * sc)) l))
    == match length l with
       | O => 0
       | S k => 50 * sc * inject_Z (Z.of_nat k) + 150 * sc
       end).
  { intros to l. unfold stagger. cbn [span].
    rewrite span_staggered_timings by nra. reflexivity. }
  assert (Hpos : forall l : list Value,
    0 <= match length l with
         | O => 0
         | S k => 50 * sc * inject_Z (Z.of_nat k) + 150 * sc
         end).
  { intro l. destruct (length l) as [|k]; [lra|].
    pose proof (inject_nat_nonneg k). nra. }
  destruct (open props); eexists; (split; [reflexivity|]).
  - rewrite <- map_rev.
    change (span (parallel [?x; ?y])) with (Qmax (span x) (Qmax (span y) 0)).
    rewrite Hstag, length_rev.
    rewrite (Q.max_l _ 0) by apply (Hpos (animations st)).
    cbn [span]. apply Q.max_compat; [ring|reflexivity].
  - change (span (parallel [?x; ?y])) with (Qmax (span x) (Qmax (span y) 0)).
    rewrite Hstag.
    rewrite (Q.max_l _ 0) by apply (Hpos (animations st)).
    cbn [span]. apply Q.max_compat; [ring|reflexivity].
Qed.

Lemma transition_span_witness :
  0 <= theme_animation_scale (group true) /\
  open (group true) <> open (group false) /\
  exists a,
    componentDidUpdate (group true) (group false) three = [a] /\
    span a ==
      Qmax
        ((if open (group true) then 250 else 200)
         * theme_animation_scale (group true))
        match length (animations three) with
        | O => 0
        | S k =>
            50 * theme_animation_scale (group true) * inject_Z (Z.of_nat k)
            + 150 * theme_animation_scale (group true)
        end.
Proof.
  split; [cbn; lra|]. split; [discriminate|].
  apply (transition_span (group true) (group false) three);
    [cbn; lra|discriminate].
Defined.

End FABGroupSpan.

(** ** [FAB.Group]: the render *)

Module FABGroupViewFacts.

Import Animated FABGroup FABGroupView Reference AnimatedFacts FABGroupFacts
  FABGroupRuns Inputs.

(** An interpolation over one segment, with no extrapolation option, is
    the straight line through its two points. *)
Lemma createInterpolation_two_points (a b ya yb x : Q) :
  ~ a == b ->
  createInterpolation (ranges [a; b] [ya; yb]) x == lerp a b ya yb x.
Proof.
  intro H. unfold createInterpolation.
  cbn [inputRange outputRange ranges left_of right_of
       extrapolateLeft extrapolateRight extrapolate].
  unfold findRange. cbn [tl findRange_loop Nat.sub nth].
  apply interpolate_extend. exact H.
Qed.

(** After the state is derived from the props, the render has one item
    per action, in the order of the actions, and none of them lacks its
    scale or its opacity: the item [k] is keyed [k], its opacity is the
    [k]-th progress value, its scale is the interpolation of that value
    over [[0, 1]] to [[0.8, 1]] while the group is open and the fixed 1
    while it is closed, and it takes touches only while the group is
    open. *)
Theorem render_items_match_actions (props : Props)
    (onPress : option (unit -> Eff unit)) (prevState : State) (s : Store) :
  let st := fst (getDerivedStateFromProps props prevState s) in
  length (items (render props onPress st)) = length (actions props) /\
  forall k it,
    nth_error (actions props) k = Some it ->
    exists v,
      nth_error (animations st) k = Some v /\
      nth_error (items (render props onPress st)) k =
        Some
          {| item_key := k;
             item_pointerEvents :=
               (if open props then pointer_box_none else pointer_none);
             item_scale :=
               Some
                 (if open props then
                    ScaleNode
                      (Value_interpolate v (ranges [0; 1] [0.8; 1]))
                  else ScaleFixed 1);
             item_opacity := Some v;
             button_text := text it;
             button_onPress := item_onPress it |}.
Proof.
  cbv zeta. set (st := fst (getDerivedStateFromProps props prevState s)).
  pose proof (derived_state_length props prevState s) as Hlen. fold st in Hlen.
  unfold render. cbn [items]. split; [apply length_map_index|].
  intros k it Hit.
  assert (Hk : (k < length (animations st))%nat).
  { rewrite Hlen. apply nth_error_Some. congruence. }
  destruct (nth_error (animations st) k) as [v|] eqn:Ev;
    [|apply nth_error_None in Ev; lia].
  exists v. split; [reflexivity|].
  rewrite nth_error_map_index, Hit. cbn [option_map Nat.add].
  unfold scales. rewrite nth_error_map, Ev. cbn [option_map].
  destruct (open props); reflexivity.
Qed.

(** While the group is open and a progress value is between 0 and 1, the
    scale of its item is 0.8 + 0.2 x progress, hence between 0.8 and
    1. *)
Theorem open_scale_bounds (props : Props) (st : State) (s : Store)
    (k : nat) (v : Value) (x : Q) :
  open props = true ->
  nth_error (animations st) k = Some v ->
  getValue s v = Some x ->
  0 <= x <= 1 ->
  exists sc y,
    nth_error (scales props st) k = Some sc /\
    scale_value s sc = Some y /\
    y == 0.8 + 0.2 * x /\
    0.8 <= y <= 1.
Proof.
  intros Hopen Hv Hx Hx01.
  exists (ScaleNode (Value_interpolate v (ranges [0; 1] [0.8; 1]))),
         (createInterpolation (ranges [0; 1] [0.8; 1]) x).
  split; [|split].
  - unfold scales. rewrite nth_error_map, Hv, Hopen. reflexivity.
  - cbn [scale_value Value_interpolate node_getValue]. rewrite Hx. reflexivity.
  - rewrite createInterpolation_two_points by lra.
    unfold lerp, Qdiv. fold_inverses. split; lra.
Qed.

(** The main button runs the optional [onPress] prop first and then
    requests the opposite of the current open flag; with no such prop
    only the request is made; when the prop throws no request is made.
    A press on the backdrop requests to close, whatever the flag. *)
Theorem fab_onPress_then_toggle (props : Props)
    (onPress : option (unit -> Eff unit)) (st : State) :
  fab_onPress (render props onPress st) =
    match onPress with
    | None => ([StateChange (negb (open props))], Returned tt)
    | Some f =>
        match f tt with
        | (es, Returned _) =>
            (es ++ [StateChange (negb (open props))], Returned tt)
        | (es, Thrown) => (es, Thrown)
        end
    end /\
  backdrop_onPress (render props onPress st)
  = ([StateChange false], Returned tt).
Proof.
  split; [|reflexivity].
  unfold render. cbn [fab_onPress]. unfold optional_call, ebind, toggle,
    onStateChange, eret.
  destruct onPress as [f|]; [|reflexivity].
  destruct (f tt) as [es [[]|]]; reflexivity.
Qed.

Lemma open_scale_bounds_witness :
  open (group true) = true /\
  nth_error (animations three) 1 = Some 2%nat /\
  getValue [0; 0; 0.5; 0] 2%nat = Some 0.5 /\
  0 <= 0.5 <= 1 /\
  exists sc y,
    nth_error (scales (group true) three) 1 = Some sc /\
    scale_value [0; 0; 0.5; 0] sc = Some y /\
    y == 0.8 + 0.2 * 0.5 /\
    0.8 <= y <= 1.
Proof.
  split; [reflexivity|]. split; [reflexivity|]. split; [reflexivity|].
  split; [lra|].
  apply (open_scale_bounds (group true) three [0; 0; 0.5; 0] 1 2%nat 0.5);
    [reflexivity|reflexivity|reflexivity|lra].
Defined.

End FABGroupViewFacts.

(** ** [FAB.Group]: runs at concrete instances *)

Module FABGroupRunsAt.

Import Animated FABGroup FABGroupLife FABGroupRuns Inputs Instances.

Lemma closed_three_well_formed : well_formed (state closed_three) four_cells.
Proof.
  unfold well_formed. cbn. split; [lia|]. split.
  - repeat constructor; lia.
  - repeat constructor; cbn; intuition lia.
Defined.

Lemma mounted_open_backdrop_witness :
  open (group true) = true /\
  all_show (state (fst (run (group true) []))) (snd (run (group true) [])) 1 /\
  getValue (snd (run (group true) []))
    (backdrop (state (fst (run (group true) [])))) = Some 0.
Proof.
  split; [reflexivity|].
  apply (mounted_open_backdrop (group true)). reflexivity.
Defined.

Lemma update_transition_settles_witness :
  well_formed (state closed_three) four_cells /\
  open (group true) <> open (props closed_three) /\
  all_show (state (fst (update closed_three (group true) four_cells)))
    (snd (update closed_three (group true) four_cells))
    (if open (group true) then 1 else 0) /\
  getValue (snd (update closed_three (group true) four_cells))
    (backdrop (state (fst (update closed_three (group true) four_cells))))
    = Some (if open (group true) then 0.32 else 0) /\
  (forall r,
      (r < length four_cells)%nat ->
      r <> backdrop (state closed_three) ->
      ~ In r (animations (state closed_three)) ->
      getValue (snd (update closed_three (group true) four_cells)) r
      = getValue four_cells r).
Proof.
  split; [exact closed_three_well_formed|]. split; [discriminate|].
  apply (update_transition_settles closed_three (group true) four_cells);
    [exact closed_three_well_formed|discriminate].
Defined.

End FABGroupRunsAt.

(** ** [CrossFadeIcon]: runs at concrete icons *)

Module CrossFadeIconRunsAt.

Import Animated CrossFadeIcon CrossFadeIconRuns Inputs.

Lemma previous_icon_differs_from_current_witness :
  previousIcon (state (fst (run string_dec plus [star; star])))
    = Some "plus"%string /\
  "plus"%string
    <> currentIcon (state (fst (run string_dec plus [star; star]))) /\
  In "plus"%string (map source (plus :: [star; star])).
Proof.
  split; [reflexivity|].
  apply (previous_icon_differs_from_current string string_dec
           plus [star; star] "plus"%string).
  reflexivity.
Defined.

End CrossFadeIconRunsAt.


(** ** [CrossFadeIcon]: the rotation over runs *)

Module CrossFadeIconRotation.

Import Animated CrossFadeIcon Reference CrossFadeIconFacts CrossFadeIconRuns
  Inputs.

Section WithIcons.

Variable IconSource : Type.
Variable eq_dec : forall a b : IconSource, {a = b} + {a <> b}.
Variable truthy : IconSource -> bool.

(** C3, amended: after every sequence of props the render shows the
    most recently supplied icon.  As long as every supplied icon equals
    the first one the rotation is the fixed 0 degrees, and a rotation
    other than the fixed 0 degrees is possible only if somewhere in the
    sequence an icon differed from the one supplied before it.  A
    previous icon is recorded exactly when some supplied icon differed
    from the first one (it is never cleared afterwards); while a truthy
    previous icon is recorded the rotation is the interpolation of the
    progress value, and while a falsy one is recorded it is the fixed 0
    degrees. *)
Theorem crossfade_latest_icon_and_rotation (p0 : Props IconSource)
    (ps : list (Props IconSource)) :
  let i := fst (run eq_dec p0 ps) in
  icon_source (view truthy i) = source (last ps p0) /\
  ((forall p, In p ps -> source p = source p0) ->
   rotate (view truthy i) = RotateFixed 0) /\
  (rotate (view truthy i) <> RotateFixed 0 ->
   exists k p q,
     nth_error (p0 :: ps) k = Some p /\
     nth_error (p0 :: ps) (S k) = Some q /\
     source p <> source q) /\
  (previousIcon (state i) = None <->
   (forall p, In p ps -> source p = source p0)) /\
  (forall q,
      previousIcon (state i) = Some q -> truthy q = true ->
      rotate (view truthy i) =
        RotateNode
          (Value_interpolate (fade (state i)) (ranges [0; 1] [0; 45]))) /\
  (forall q,
      previousIcon (state i) = Some q -> truthy q = false ->
      rotate (view truthy i) = RotateFixed 0).
Proof.
  cbv zeta.
  destruct (run_latest_icon_and_first_change IconSource eq_dec truthy p0 ps)
    as (Hicon & Hsame & Hchange).
  split; [exact Hicon|]. split; [exact Hsame|]. split; [exact Hchange|].
  split; [|split].
  - unfold run. rewrite mount_instance. split.
    + intros H p Hin.
      destruct (eq_dec (source p) (source p0)) as [E|E]; [exact E|].
      exfalso. revert H.
      apply updates_previous_recorded with (p := p); [exact Hin|exact E].
    + intro H. rewrite updates_same_icon by exact H. reflexivity.
  - intros q Hq Ht. unfold view, render. cbn [rotate].
    rewrite Hq. cbn [truthy_opt]. rewrite Ht. reflexivity.
  - intros q Hq Ht. unfold view, render. cbn [rotate].
    rewrite Hq. cbn [truthy_opt]. rewrite Ht. reflexivity.
Qed.

End WithIcons.

(** C10 as stated fails: mount with the empty icon name, then supply
    "star".  The empty name is recorded as the previous icon, but it is
    falsy, so the rotation is the fixed 0 degrees and not the
    interpolation of the progress value. *)
Lemma render_rotation_with_falsy_previous_icon :
  ~ Stated.rotation_interpolated_when_previous_exists string nonempty /\
  previousIcon (state (fst (run string_dec blank [star]))) = Some EmptyString /\
  rotate (view nonempty (fst (run string_dec blank [star]))) = RotateFixed 0.
Proof.
  split; [|split; reflexivity].
  intro H.
  specialize (H star (state (fst (run string_dec blank [star])))
                EmptyString eq_refl).
  vm_compute in H. discriminate H.
Qed.

End CrossFadeIconRotation.
